(** * Silent exception handler detection: a shallow embedding

    The program under study is [tools/check_silent_exceptions.py]: a
    visitor over Python syntax trees that reports exception handlers which
    swallow errors, an aggregation of the reports per file, and a command
    line driver.

    Conventions of the embedding:
    - a Python [str] is a [string] holding its UTF-8 bytes;
    - a Python [int] is a [Z], a length is a [nat];
    - a [dict] is a [gmap], a [set] a [gset];
    - [self.issues.append], [report.append] and [print] are modelled by
      list concatenation on the right;
    - the standard library pieces the program calls ([ast.walk],
      [ast.NodeVisitor], [sorted], [str.rstrip], [str.split]) are written
      out after their CPython definitions. *)

From Stdlib Require Import ZArith String Ascii List Permutation Sorted Lia.
From Stdlib Require Import DecimalString.
From Stdlib Require OrderedTypeEx.
From stdpp Require Import base decidable option list gmap strings fin_maps fin_sets.

Import ListNotations.
Local Open Scope string_scope.
Local Open Scope Z_scope.
Local Open Scope list_scope.

Set Warnings "-register-all".

(** ** Syntax trees *)

(** [ast.expr_context]: the classes [Load], [Store] and [Del], which have
    no fields. *)
Inductive expr_context : Type := Load | Store | Del.

(** [ast.AST].  The classes the program inspects have a constructor of
    their own, with their fields in the order of [_fields]; [ExprContext]
    is the node found in a [ctx] field; [Other cls fields] stands for a node
    of any class [cls] that has no constructor of its own here ([Module],
    [Try], [FunctionDef], [Lambda], [ListComp], [comprehension], [Expr],
    [Constant], [keyword], ...), with its child nodes in field order.  Of
    the position attributes only those of [ExceptHandler] are read by the
    program; [col_offset] is read with [getattr] and a default.  The type
    does not separate statements from expressions: it has every tree the
    parser builds, and more. *)
Inductive AST : Type :=
| Name (id : string) (ctx : expr_context)
| Attribute (value : AST) (attr : string) (ctx : expr_context)
| Call (func : AST) (args : list AST) (keywords : list AST)
| Raise (exc : option AST) (cause : option AST)
| Return (value : option AST)
| Pass
| ExceptHandler (lineno : Z) (col_offset : option Z)
                (type : option AST) (name : option string) (body : list AST)
| ExprContext (ctx : expr_context)
| Other (cls : string) (fields : list AST).

Definition opt_node (o : option AST) : list AST :=
  match o with Some n => [n] | None => [] end.

(** [ast.iter_child_nodes]: the fields that are nodes, and the nodes of the
    fields that are lists, in field order. *)
Definition iter_child_nodes (node : AST) : list AST :=
  match node with
  | Name _ ctx => [ExprContext ctx]
  | Attribute value _ ctx => [value; ExprContext ctx]
  | Call func args keywords => func :: args ++ keywords
  | Raise exc cause => opt_node exc ++ opt_node cause
  | Return value => opt_node value
  | Pass => []
  | ExceptHandler _ _ type _ body => opt_node type ++ body
  | ExprContext _ => []
  | Other _ fields => fields
  end.

Definition sum_sizes (f : AST → nat) (l : list AST) : nat :=
  fold_right (λ n acc, f n + acc)%nat 0%nat l.

Definition opt_size (f : AST → nat) (o : option AST) : nat :=
  match o with Some n => f n | None => 0%nat end.

(** Number of nodes of a tree. *)
Fixpoint size (node : AST) : nat :=
  match node with
  | Name _ _ => 2%nat
  | Attribute value _ _ => S (size value + 1)
  | Call func args keywords =>
      S (size func + (sum_sizes size args + sum_sizes size keywords))
  | Raise exc cause => S (opt_size size exc + opt_size size cause)
  | Return value => S (opt_size size value)
  | Pass => 1%nat
  | ExceptHandler _ _ type _ body => S (opt_size size type + sum_sizes size body)
  | ExprContext _ => 1%nat
  | Other _ fields => S (sum_sizes size fields)
  end.

(** [ast.walk]: breadth first, with a queue.
<<
    todo = deque([node])
    while todo:
        node = todo.popleft()
        todo.extend(iter_child_nodes(node))
        yield node
>>
    One unit of fuel is spent for each node taken off the queue. *)
Fixpoint walk_queue (fuel : nat) (todo : list AST) : list AST :=
  match fuel with
  | O => []
  | S fuel' =>
      match todo with
      | [] => []
      | node :: rest => node :: walk_queue fuel' (rest ++ iter_child_nodes node)
      end
  end.

Definition walk (node : AST) : list AST := walk_queue (size node) [node].

(** A node of the subtree of [root]: [root] itself or a node of the
    subtree of one of its children. *)
Inductive subnode : AST → AST → Prop :=
| subnode_self (n : AST) : subnode n n
| subnode_child (m c n : AST) :
    In c (iter_child_nodes n) → subnode m c → subnode m n.

(** Positions: the path of child indices from the root identifies a node
    of a tree, as object identity does in Python. *)
Definition position : Type := list nat.

Fixpoint node_at (p : position) (root : AST) : option AST :=
  match p with
  | [] => Some root
  | i :: q =>
      match nth_error (iter_child_nodes root) i with
      | Some c => node_at q c
      | None => None
      end
  end.

Definition is_ExceptHandler (node : AST) : bool :=
  match node with ExceptHandler _ _ _ _ _ => true | _ => false end.

(** ** Issues *)

Record SilentExceptionIssue : Type := {
  file_path : string;
  line_number : Z;
  column : Z;
  issue_type : string;
  description : string;
  code_snippet : option string
}.

(** ** Strings and numbers as Python prints them *)

Definition nl : string := String (ascii_of_nat 10) EmptyString.

(** [str(n)] for an [int]. *)
Definition str_of_Z (n : Z) : string := NilZero.string_of_int (Z.to_int n).

Definition str_of_nat (n : nat) : string := str_of_Z (Z.of_nat n).

Fixpoint replicate_str (n : nat) (s : string) : string :=
  match n with O => "" | S k => s +:+ replicate_str k s end.

(** The format [{n:3d}]: decimal, right aligned in at least 3 columns. *)
Definition fmt_3d (n : Z) : string :=
  let s := str_of_Z n in
  replicate_str (3 - String.length s) " " +:+ s.

(** [len(s)] counts code points: the bytes that are not UTF-8
    continuation bytes (those of the form 10xxxxxx). *)
Definition is_continuation (a : ascii) : bool :=
  let n := nat_of_ascii a in (128 <=? n)%nat && (n <? 192)%nat.

Fixpoint py_len (s : string) : nat :=
  match s with
  | EmptyString => O
  | String a r => if is_continuation a then py_len r else S (py_len r)
  end.

(** [s.split('\n')]. *)
Fixpoint split_lines_aux (cur : string) (s : string) : list string :=
  match s with
  | EmptyString => [cur]
  | String a r =>
      if Ascii.eqb a (ascii_of_nat 10)
      then cur :: split_lines_aux "" r
      else split_lines_aux (cur +:+ String a EmptyString) r
  end.

Definition split_nl (s : string) : list string := split_lines_aux "" s.

(** [needle in s] on strings. *)
Fixpoint str_contains (needle s : string) : bool :=
  String.prefix needle s ||
  match s with
  | EmptyString => false
  | String _ r => str_contains needle r
  end.

(** [str.rstrip()] removes trailing white space.  The white space code
    points of Python, as reversed UTF-8 byte sequences. *)
Definition rev_whitespace : list (list nat) :=
  [ [9]; [10]; [11]; [12]; [13]; [28]; [29]; [30]; [31]; [32];
    [133; 194]; [160; 194]; [128; 154; 225];
    [128; 128; 226]; [129; 128; 226]; [130; 128; 226]; [131; 128; 226];
    [132; 128; 226]; [133; 128; 226]; [134; 128; 226]; [135; 128; 226];
    [136; 128; 226]; [137; 128; 226]; [138; 128; 226];
    [168; 128; 226]; [169; 128; 226]; [175; 128; 226];
    [159; 129; 226]; [128; 128; 227] ]%nat.

Fixpoint strip_prefix_nat (p l : list nat) : option (list nat) :=
  match p, l with
  | [], _ => Some l
  | x :: p', y :: l' => if (x =? y)%nat then strip_prefix_nat p' l' else None
  | _ :: _, [] => None
  end.

Fixpoint strip_one (ws : list (list nat)) (l : list nat) : option (list nat) :=
  match ws with
  | [] => None
  | w :: ws' =>
      match strip_prefix_nat w l with
      | Some r => Some r
      | None => strip_one ws' l
      end
  end.

Fixpoint lstrip_rev (fuel : nat) (l : list nat) : list nat :=
  match fuel with
  | O => l
  | S k => match strip_one rev_whitespace l with
           | Some r => lstrip_rev k r
           | None => l
           end
  end.

Definition rstrip (s : string) : string :=
  let bytes := rev (map nat_of_ascii (list_ascii_of_string s)) in
  string_of_list_ascii
    (map ascii_of_nat (rev (lstrip_rev (List.length bytes) bytes))).

(** ** The visitor *)

(** [SilentExceptionVisitor]: the two attributes set by [__init__], the
    list of issues the methods append to, and a log of the nodes
    [visit_ExceptHandler] was called on.  The log is not in the program;
    it records the calls so that statements about them can be made. *)
Record SilentExceptionVisitor : Type := {
  self_file_path : string;
  self_source_lines : list string;
  self_issues : list SilentExceptionIssue;
  self_visited : list AST
}.

Definition init (file_path : string) (source_lines : list string)
  : SilentExceptionVisitor :=
  {| self_file_path := file_path; self_source_lines := source_lines;
     self_issues := []; self_visited := [] |}.

Definition append_issue (self : SilentExceptionVisitor)
  (issue : SilentExceptionIssue) : SilentExceptionVisitor :=
  {| self_file_path := self_file_path self;
     self_source_lines := self_source_lines self;
     self_issues := self_issues self ++ [issue];
     self_visited := self_visited self |}.

Definition log_visit (self : SilentExceptionVisitor) (node : AST)
  : SilentExceptionVisitor :=
  {| self_file_path := self_file_path self;
     self_source_lines := self_source_lines self;
     self_issues := self_issues self;
     self_visited := self_visited self ++ [node] |}.

(** [_get_code_snippet], with [context_lines] at its default 2. *)
Definition _get_code_snippet (source_lines : list string) (line_num : Z) : string :=
  let context_lines := 2 in
  let start := Z.max 0 (line_num - context_lines - 1) in
  let end_ := Z.min (Z.of_nat (length source_lines)) (line_num + context_lines) in
  let lines :=
    map (λ i : Z,
           let marker := if i =? line_num - 1 then ">>> " else "    " in
           marker +:+ fmt_3d (i + 1) +:+ ": "
                  +:+ rstrip (nth (Z.to_nat i) source_lines ""))
        (seqZ start (end_ - start)) in
  String.concat nl lines.

(** [_is_empty_handler]: [len(node.body) == 0]. *)
Definition _is_empty_handler (node : AST) : bool :=
  match node with
  | ExceptHandler _ _ _ _ body => (length body =? 0)%nat
  | _ => false
  end.

(** [_is_pass_only_handler]. *)
Definition _is_pass_only_handler (node : AST) : bool :=
  match node with
  | ExceptHandler _ _ _ _ body =>
      (length body =? 1)%nat &&
      match nth_error body 0 with Some Pass => true | _ => false end
  | _ => false
  end.

Definition logging_methods : list string :=
  ["debug"; "info"; "warning"; "error"; "critical"; "exception"].

Definition str_in (s : string) (l : list string) : bool :=
  existsb (String.eqb s) l.

(** The four tests of the loop body of [_has_logging_or_reraise]. *)
Definition is_logging_call (stmt : AST) : bool :=
  match stmt with
  | Call (Attribute _ attr _) _ _ => str_in attr logging_methods
  | _ => false
  end.

Definition is_print_call (stmt : AST) : bool :=
  match stmt with
  | Call (Name id _) _ _ => String.eqb id "print"
  | _ => false
  end.

Definition is_Raise (stmt : AST) : bool :=
  match stmt with Raise _ _ => true | _ => false end.

Definition is_Return (stmt : AST) : bool :=
  match stmt with Return _ => true | _ => false end.

Definition recovery_signal (stmt : AST) : bool :=
  is_logging_call stmt || is_print_call stmt || is_Raise stmt || is_Return stmt.

(** [_has_logging_or_reraise]: the first node of the walk that passes one
    of the tests returns [True]. *)
Definition _has_logging_or_reraise (node : AST) : bool :=
  existsb recovery_signal (walk node).

(** [_is_silent_handler]. *)
Definition _is_silent_handler (node : AST) : bool :=
  _is_empty_handler node || _is_pass_only_handler node ||
  negb (_has_logging_or_reraise node).

Definition broad_names : list string := ["Exception"; "BaseException"].

(** The body of [visit_ExceptHandler] up to the call of [generic_visit]:
    two [if]/[elif] chains, each appending at most one issue. *)
Definition check_handler (self : SilentExceptionVisitor) (node : AST)
  : SilentExceptionVisitor :=
  match node with
  | ExceptHandler lineno col_offset type _ _ =>
      let line_num := lineno in
      let col := default 0 col_offset in
      let mk (ty desc : string) : SilentExceptionIssue :=
        {| file_path := self_file_path self; line_number := line_num;
           column := col; issue_type := ty; description := desc;
           code_snippet :=
             Some (_get_code_snippet (self_source_lines self) line_num) |} in
      let self :=
        match type with
        | None =>
            append_issue self
              (mk "bare_except" "Bare 'except:' clause catches all exceptions")
        | Some (Name id _) =>
            if str_in id broad_names then
              if _is_silent_handler node then
                append_issue self
                  (mk "broad_exception"
                      ("Broad '" +:+ id +:+ "' catch with silent handling"))
              else self
            else self
        | Some _ => self
        end in
      if _is_empty_handler node then
        append_issue self
          (mk "empty_except"
              "Empty except block - exceptions are silently ignored")
      else if _is_pass_only_handler node then
        append_issue self
          (mk "pass_only" "Exception handler only contains 'pass' statement")
      else self
  | _ => self
  end.

(** [NodeVisitor.visit] looks up [visit_<class name>], which exists for
    [ExceptHandler] only, and falls back on [generic_visit], which visits
    the child nodes in field order; [visit_ExceptHandler] ends with a call
    of [generic_visit].  The three methods are mutually recursive; they are
    tied together here and stated separately below.  A [ctx] child has no
    children and no method of its own: visiting it changes nothing. *)
Fixpoint visit (self : SilentExceptionVisitor) (node : AST) {struct node}
  : SilentExceptionVisitor :=
  let visit_list :=
    fix visit_list (self : SilentExceptionVisitor) (l : list AST) :=
      match l with
      | [] => self
      | child :: rest => visit_list (visit self child) rest
      end in
  let visit_opt (self : SilentExceptionVisitor) (o : option AST) :=
    match o with Some child => visit self child | None => self end in
  match node with
  | Name _ _ => self
  | Attribute value _ _ => visit self value
  | Call func args keywords =>
      visit_list (visit_list (visit self func) args) keywords
  | Raise exc cause => visit_opt (visit_opt self exc) cause
  | Return value => visit_opt self value
  | Pass => self
  | ExceptHandler _ _ type _ body =>
      visit_list (visit_opt (check_handler (log_visit self node) node) type) body
  | ExprContext _ => self
  | Other _ fields => visit_list self fields
  end.

Definition generic_visit (self : SilentExceptionVisitor) (node : AST)
  : SilentExceptionVisitor :=
  fold_left visit (iter_child_nodes node) self.

Definition visit_ExceptHandler (self : SilentExceptionVisitor) (node : AST)
  : SilentExceptionVisitor :=
  generic_visit (check_handler (log_visit self node) node) node.

(** ** Analysis of files *)

(** [str.splitlines()] on UTF-8 bytes: a line ends at LF, VT, FF, CR,
    CR LF, FS, GS, RS, NEL (C2 85), LS and PS (E2 80 A8, E2 80 A9); no
    empty last line is produced. *)
Fixpoint splitlines_bytes (cur : list nat) (l : list nat) {struct l}
  : list (list nat) :=
  match l with
  | [] => match cur with [] => [] | _ => [rev cur] end
  | a :: r =>
      let continue := splitlines_bytes (a :: cur) r in
      if existsb (Nat.eqb a) [10; 11; 12; 28; 29; 30]%nat then
        rev cur :: splitlines_bytes [] r
      else if (a =? 13)%nat then
        match r with
        | b :: r' =>
            if (b =? 10)%nat then rev cur :: splitlines_bytes [] r'
            else rev cur :: splitlines_bytes [] r
        | [] => rev cur :: splitlines_bytes [] r
        end
      else if (a =? 194)%nat then
        match r with
        | b :: r' =>
            if (b =? 133)%nat then rev cur :: splitlines_bytes [] r'
            else continue
        | [] => continue
        end
      else if (a =? 226)%nat then
        match r with
        | b :: c :: r' =>
            if (b =? 128)%nat && ((c =? 168)%nat || (c =? 169)%nat)
            then rev cur :: splitlines_bytes [] r'
            else continue
        | _ => continue
        end
      else continue
  end.

Definition splitlines (s : string) : list string :=
  map (λ l, string_of_list_ascii (map ascii_of_nat l))
      (splitlines_bytes [] (map nat_of_ascii (list_ascii_of_string s))).

(** What the program asks of its surroundings.  A path is the string
    [str(path)].  [read_text] and [ast_parse] either return or raise, a
    [SyntaxError] or another exception, with the text [str(e)]. *)
Inductive read_result : Type :=
| ReadOk (source_code : string)
| ReadError (e : string).

Inductive parse_result : Type :=
| Parsed (tree : AST)
| SyntaxError (e : string)
| ParseError (e : string).

Record JsonResult : Type := {
  json_issues : list SilentExceptionIssue;
  json_total_count : nat;
  json_files_with_issues : list string;
  json_files_count : nat;
  json_summary : list (string * nat)
}.

Record World : Type := {
  path_exists : string → bool;
  path_is_file : string → bool;
  (** [directory.rglob('*.py')], in the order of iteration *)
  rglob_py : string → list string;
  read_text : string → read_result;
  (** [ast.parse(source_code, filename)] *)
  ast_parse : string → string → parse_result;
  (** [json.dumps(result, indent=2)] *)
  json_dumps : JsonResult → string
}.

Section Analysis.
Context (w : World).

(** [analyze_file]: the issues returned and the lines printed on
    [sys.stderr]. *)
Definition analyze_file (file_path : string)
  : list SilentExceptionIssue * list string :=
  match read_text w file_path with
  | ReadError e => ([], ["Error analyzing " +:+ file_path +:+ ": " +:+ e])
  | ReadOk source_code =>
      let source_lines := splitlines source_code in
      match ast_parse w source_code file_path with
      | Parsed tree =>
          let visitor := init file_path source_lines in
          let visitor := visit visitor tree in
          (self_issues visitor, [])
      | SyntaxError e =>
          ([], ["Syntax error in " +:+ file_path +:+ ": " +:+ e])
      | ParseError e =>
          ([], ["Error analyzing " +:+ file_path +:+ ": " +:+ e])
      end
  end.

Definition default_exclude_patterns : list string :=
  ["__pycache__"; ".git"; ".venv"; "node_modules"; "temp_ask_claude"].

Definition excluded (exclude_patterns : list string) (py_file : string) : bool :=
  existsb (λ pattern, str_contains pattern py_file) exclude_patterns.

(** The loop of [analyze_directory] over the files found. *)
Fixpoint analyze_files (exclude_patterns : list string) (files : list string)
  (all_issues : list SilentExceptionIssue) (err : list string)
  : list SilentExceptionIssue * list string :=
  match files with
  | [] => (all_issues, err)
  | py_file :: rest =>
      if excluded exclude_patterns py_file then
        analyze_files exclude_patterns rest all_issues err
      else
        let '(issues, e) := analyze_file py_file in
        analyze_files exclude_patterns rest (all_issues ++ issues) (err ++ e)
  end.

Definition analyze_directory (directory : string)
  (exclude_patterns : option (list string))
  : list SilentExceptionIssue * list string :=
  let exclude_patterns := default default_exclude_patterns exclude_patterns in
  analyze_files exclude_patterns (rglob_py w directory) [] [].
End Analysis.

(** ** Aggregation and report *)

(** [sorted(l, key=key)]: the stable sort, by insertion from the right;
    an element goes before the first one whose key is not smaller. *)
Section PySorted.
Context {A K : Type} (leb : K → K → bool) (key : A → K).

Fixpoint insert_sorted (x : A) (l : list A) : list A :=
  match l with
  | [] => [x]
  | y :: r => if leb (key x) (key y) then x :: y :: r
              else y :: insert_sorted x r
  end.

Definition py_sorted (l : list A) : list A := fold_right insert_sorted [] l.
End PySorted.

(** The grouping loop of [format_issue_report]. *)
Definition by_file_step (by_file : gmap string (list SilentExceptionIssue))
  (issue : SilentExceptionIssue) : gmap string (list SilentExceptionIssue) :=
  let by_file :=
    match by_file !! file_path issue with
    | None => <[file_path issue := []]> by_file
    | Some _ => by_file
    end in
  alter (λ file_issues, file_issues ++ [issue]) (file_path issue) by_file.

Definition by_file (issues : list SilentExceptionIssue)
  : gmap string (list SilentExceptionIssue) :=
  fold_left by_file_step issues ∅.

(** The counting loop: [issue_counts.get(issue.issue_type, 0) + 1]. *)
Definition issue_counts_step (issue_counts : gmap string nat)
  (issue : SilentExceptionIssue) : gmap string nat :=
  <[issue_type issue := (default 0%nat (issue_counts !! issue_type issue) + 1)%nat]>
    issue_counts.

Definition issue_counts (issues : list SilentExceptionIssue) : gmap string nat :=
  fold_left issue_counts_step issues ∅.

(** [sorted(d.items())]: the keys of a dictionary are distinct, so the
    first components decide the comparison of the pairs. *)
Definition sorted_items {V : Type} (d : gmap string V) : list (string * V) :=
  py_sorted String.leb fst (map_to_list d).

(** The files of the report in the order they are rendered, each with its
    issues in the order they are rendered. *)
Definition report_sections (issues : list SilentExceptionIssue)
  : list (string * list SilentExceptionIssue) :=
  map (λ '(file_path, file_issues),
         (file_path, py_sorted Z.leb line_number file_issues))
      (sorted_items (by_file issues)).

Definition issue_lines (show_snippets : bool) (issue : SilentExceptionIssue)
  : list string :=
  ["  Line " +:+ str_of_Z (line_number issue) +:+ ": " +:+ description issue
             +:+ " [" +:+ issue_type issue +:+ "]"]
  ++ match code_snippet issue with
     | Some snippet =>
         if show_snippets && negb (String.eqb snippet "") then
           "  Code:" :: map (λ line, "    " +:+ line) (split_nl snippet)
         else []
     | None => []
     end
  ++ [""].

Definition section_lines (show_snippets : bool)
  (s : string * list SilentExceptionIssue) : list string :=
  ["ðŸ“ " +:+ fst s; replicate_str (py_len (fst s)) "="]
  ++ flat_map (issue_lines show_snippets) (snd s)
  ++ [""].

Definition summary_lines (issues : list SilentExceptionIssue) : list string :=
  "ðŸ“Š Issue Summary:"
  :: map (λ '(issue_type, count), "  " +:+ issue_type +:+ ": " +:+ str_of_nat count)
         (sorted_items (issue_counts issues)).

(** [format_issue_report]. *)
Definition format_issue_report (issues : list SilentExceptionIssue)
  (show_snippets : bool) : string :=
  match issues with
  | [] => "âœ… No silent exception handling issues found!"
  | _ =>
      String.concat nl
        (["ðŸš¨ Found " +:+ str_of_nat (length issues)
            +:+ " silent exception handling issues:" +:+ nl]
         ++ flat_map (section_lines show_snippets) (report_sections issues)
         ++ summary_lines issues)
  end.

(** [get_files_with_issues]. *)
Definition get_files_with_issues (issues : list SilentExceptionIssue)
  : list string :=
  let files : gset string :=
    fold_left (λ files issue, files ∪ {[file_path issue]}) issues ∅ in
  py_sorted String.leb id (elements files).

(** ** The command line driver *)

(** The namespace returned by [parser.parse_args()]. *)
Record Args : Type := {
  path : string;
  no_snippets : bool;
  exclude : list string;
  json : bool;
  files_only : bool;
  parallel_fix : bool
}.

(** What a run leaves behind: the strings given to [print], one per call,
    on each stream, and the exit status of the process. *)
Record Outcome : Type := {
  stdout : list string;
  stderr : list string;
  exit_status : Z
}.

(** [sys.exit(n)] for an [int]: the interpreter hands [n] to the C function
    [exit], and the status the parent process receives is its low 8 bits
    (POSIX), so that 256 is received as 0. *)
Definition sys_exit (n : Z) : Z := n mod 256.

(** The [summary] dictionary of the [--json] result, in insertion order. *)
Fixpoint summary_incr (issue_type : string) (summary : list (string * nat))
  : list (string * nat) :=
  match summary with
  | [] => [(issue_type, 1%nat)]
  | (k, v) :: rest =>
      if String.eqb k issue_type then (k, (v + 1)%nat) :: rest
      else (k, v) :: summary_incr issue_type rest
  end.

Definition json_result (issues : list SilentExceptionIssue) : JsonResult :=
  let files_with_issues := get_files_with_issues issues in
  {| json_issues := issues;
     json_total_count := length issues;
     json_files_with_issues := files_with_issues;
     json_files_count := length files_with_issues;
     json_summary :=
       fold_left (λ summary issue, summary_incr (issue_type issue) summary)
                 issues [] |}.

(** The three endings of the [--parallel-fix] output. *)
Definition parallel_advice (n : nat) : list string :=
  [nl +:+ "ðŸš€ Parallel fix recommended for " +:+ str_of_nat n +:+ " files";
   "Execute with parallel agents for faster fixing"].

Definition sequential_advice (n : nat) : list string :=
  [nl +:+ "âœ… Sequential fix recommended for " +:+ str_of_nat n +:+ " files";
   "Small number of files can be fixed sequentially"].

Definition no_fix_advice : list string := [nl +:+ "âœ… No files need fixing!"].

Section Main.
Context (w : World).

(** The issues [main] collects, with the diagnostics printed meanwhile. *)
Definition collect (args : Args) : list SilentExceptionIssue * list string :=
  if path_is_file w (path args) then analyze_file w (path args)
  else
    let exclude_patterns :=
      ["__pycache__"; ".git"; ".venv"; "node_modules"; "temp_ask_claude"]
      ++ exclude args in
    analyze_directory w (path args) (Some exclude_patterns).

(** [main], after the arguments are parsed. *)
Definition main (args : Args) : Outcome :=
  if negb (path_exists w (path args)) then
    {| stdout := [];
       stderr := ["Error: Path " +:+ path args +:+ " does not exist"];
       exit_status := sys_exit 1 |}
  else
    let '(issues, err) := collect args in
    if files_only args then
      let files_with_issues := get_files_with_issues issues in
      {| stdout := files_with_issues; stderr := err;
         exit_status := sys_exit (Z.of_nat (length issues)) |}
    else if parallel_fix args then
      let files_with_issues := get_files_with_issues issues in
      {| stdout :=
           ["Found " +:+ str_of_nat (length issues) +:+ " issues in "
              +:+ str_of_nat (length files_with_issues) +:+ " files:"]
           ++ map (λ file_path, "  " +:+ file_path) files_with_issues
           ++ (if (5 <? length files_with_issues)%nat then
                 parallel_advice (length files_with_issues)
               else if (0 <? length files_with_issues)%nat then
                 sequential_advice (length files_with_issues)
               else no_fix_advice);
         stderr := err;
         exit_status := sys_exit (Z.of_nat (length issues)) |}
    else
      {| stdout :=
           [if json args then json_dumps w (json_result issues)
            else format_issue_report issues (negb (no_snippets args))];
         stderr := err;
         exit_status := sys_exit (Z.of_nat (length issues)) |}.
End Main.

(** ** Vocabulary of the statements *)

(** The issues [visit_ExceptHandler] appends for one node. *)
Definition handler_issues (file_path : string) (source_lines : list string)
  (node : AST) : list SilentExceptionIssue :=
  self_issues (check_handler (init file_path source_lines) node).

Definition issues_of_type (ty : string) (issues : list SilentExceptionIssue)
  : list SilentExceptionIssue :=
  filter (λ issue, issue_type issue = ty) issues.

(** A recovery signal, as the specification words it: a call of a method
    with a logging name on any receiver, a call of [print], a [raise], a
    [return]. *)
Inductive RecoverySignal : AST → Prop :=
| signal_logging (receiver : AST) (attr : string) (ctx : expr_context)
    (args keywords : list AST) :
    In attr ["debug"; "info"; "warning"; "error"; "critical"; "exception"] →
    RecoverySignal (Call (Attribute receiver attr ctx) args keywords)
| signal_print (ctx : expr_context) (args keywords : list AST) :
    RecoverySignal (Call (Name "print" ctx) args keywords)
| signal_raise (exc cause : option AST) : RecoverySignal (Raise exc cause)
| signal_return (value : option AST) : RecoverySignal (Return value).

(** The positions of the exception handlers of a tree, in the order of a
    depth first traversal; [fuel] bounds the depth. *)
Fixpoint shift_positions (f : AST → list position) (i : nat) (l : list AST)
  : list position :=
  match l with
  | [] => []
  | c :: r => map (cons i) (f c) ++ shift_positions f (S i) r
  end.

Fixpoint handler_positions_upto (fuel : nat) (root : AST) : list position :=
  match fuel with
  | O => []
  | S k =>
      (if is_ExceptHandler root then [[]] else [])
      ++ shift_positions (handler_positions_upto k) 0 (iter_child_nodes root)
  end.

Definition handler_positions (root : AST) : list position :=
  handler_positions_upto (size root) root.

(** The nodes found at a list of positions. *)
Definition nodes_at (root : AST) (ps : list position) : list AST :=
  flat_map (λ p, match node_at p root with Some n => [n] | None => [] end) ps.

(** The issues of a handler: one list for each [if]/[elif] chain. *)
Definition type_chain (file_path : string) (source_lines : list string)
  (node : AST) : list SilentExceptionIssue :=
  match node with
  | ExceptHandler lineno col_offset type _ _ =>
      let mk (ty desc : string) : SilentExceptionIssue :=
        {| file_path := file_path; line_number := lineno;
           column := default 0 col_offset; issue_type := ty; description := desc;
           code_snippet := Some (_get_code_snippet source_lines lineno) |} in
      match type with
      | None => [mk "bare_except" "Bare 'except:' clause catches all exceptions"]
      | Some (Name id _) =>
          if str_in id broad_names && _is_silent_handler node then
            [mk "broad_exception"
                ("Broad '" +:+ id +:+ "' catch with silent handling")]
          else []
      | Some _ => []
      end
  | _ => []
  end.

Definition body_chain (file_path : string) (source_lines : list string)
  (node : AST) : list SilentExceptionIssue :=
  match node with
  | ExceptHandler lineno col_offset _ _ _ =>
      let mk (ty desc : string) : SilentExceptionIssue :=
        {| file_path := file_path; line_number := lineno;
           column := default 0 col_offset; issue_type := ty; description := desc;
           code_snippet := Some (_get_code_snippet source_lines lineno) |} in
      if _is_empty_handler node then
        [mk "empty_except" "Empty except block - exceptions are silently ignored"]
      else if _is_pass_only_handler node then
        [mk "pass_only" "Exception handler only contains 'pass' statement"]
      else []
  | _ => []
  end.

(** The issues of one file among those collected. *)
Definition issues_in (p : string) (issues : list SilentExceptionIssue)
  : list SilentExceptionIssue :=
  filter (λ issue, file_path issue = p) issues.

Definition key_le {A K : Type} (leb : K → K → bool) (key : A → K)
  (x y : A) : Prop :=
  leb (key x) (key y) = true.

Definition path_lt (a b : string * list SilentExceptionIssue) : Prop :=
  String.ltb (fst a) (fst b) = true.

Definition line_le (a b : SilentExceptionIssue) : Prop :=
  line_number a ≤ line_number b.

(** The files [main] analyzes: the path itself when it is a file, else
    the files found below it that no pattern excludes. *)
Definition analyzed_files (w : World) (args : Args) : list string :=
  if path_is_file w (path args) then [path args]
  else
    filter (λ py_file,
              excluded (["__pycache__"; ".git"; ".venv"; "node_modules";
                         "temp_ask_claude"] ++ exclude args) py_file = false)
           (rglob_py w (path args)).

(** The list [lines] built by [_get_code_snippet] before it is joined. *)
Definition snippet_lines (source_lines : list string) (line_num : Z)
  : list string :=
  let context_lines := 2 in
  let start := Z.max 0 (line_num - context_lines - 1) in
  let end_ := Z.min (Z.of_nat (length source_lines)) (line_num + context_lines) in
  map (λ i : Z,
         let marker := if i =? line_num - 1 then ">>> " else "    " in
         marker +:+ fmt_3d (i + 1) +:+ ": "
                +:+ rstrip (nth (Z.to_nat i) source_lines ""))
      (seqZ start (end_ - start)).

(** A line of a snippet that carries the marker. *)
Definition marked (line : string) : Prop := String.prefix ">>> " line = true.

(** An issue without its snippet. *)
Definition without_snippet (issue : SilentExceptionIssue) : SilentExceptionIssue :=
  {| file_path := file_path issue; line_number := line_number issue;
     column := column issue; issue_type := issue_type issue;
     description := description issue; code_snippet := None |}.

Definition issue_types : list string :=
  ["bare_except"; "broad_exception"; "empty_except"; "pass_only"].

(** ** Sample inputs *)

(** [try: x()] / [except: pass], on two lines. *)
Definition sample_tree : AST :=
  Other "Module"
    [Other "Try"
       [Other "Expr" [Call (Name "x" Load) [] []];
        ExceptHandler 2 (Some 0) None None [Pass]]].

Definition sample_source : string := "try: x()" +:+ nl +:+ "except: pass" +:+ nl.

(** A directory with [a.py], which holds the handler above, and [b.py],
    which does not parse. *)
Definition sample_world : World :=
  {| path_exists := λ _, true;
     path_is_file := λ p, String.eqb p "proj/a.py" || String.eqb p "proj/b.py";
     rglob_py := λ _, ["proj/a.py"; "proj/b.py"];
     read_text := λ p,
       if String.eqb p "proj/a.py" then ReadOk sample_source else ReadOk "def (";
     ast_parse := λ source_code filename,
       if String.eqb filename "proj/a.py" then Parsed sample_tree
       else SyntaxError "invalid syntax (b.py, line 1)";
     json_dumps := λ _, "{}" |}.

(** A file of 128 handlers that pass, each with no filter: 256 lines,
    [try: x()] and [except: pass] in turn. *)
Definition wrap_source : string :=
  replicate_str 128 ("try: x()" +:+ nl +:+ "except: pass" +:+ nl).

Definition wrap_tree : AST :=
  Other "Module"
    (map (λ i : nat,
            Other "Try"
              [Other "Expr" [Call (Name "x" Load) [] []];
               ExceptHandler (2 * Z.of_nat i + 2) (Some 0) None None [Pass]])
         (seq 0 128)).

Definition wrap_world : World :=
  {| path_exists := λ _, true;
     path_is_file := λ _, true;
     rglob_py := λ _, [];
     read_text := λ _, ReadOk wrap_source;
     ast_parse := λ _ _, Parsed wrap_tree;
     json_dumps := λ _, "{}" |}.

Definition sample_args (files_only parallel_fix : bool) : Args :=
  {| path := "proj"; no_snippets := false; exclude := []; json := false;
     files_only := files_only; parallel_fix := parallel_fix |}.

(** * Properties *)

(** ** Trees *)

Lemma sum_sizes_app (f : AST → nat) (l1 l2 : list AST) :
  sum_sizes f (l1 ++ l2) = (sum_sizes f l1 + sum_sizes f l2)%nat.
Proof. induction l1 as [|x l1 IH]; simpl; [done|]. rewrite IH. lia. Qed.

Lemma opt_size_sum (f : AST → nat) (o : option AST) :
  opt_size f o = sum_sizes f (opt_node o).
Proof. destruct o; simpl; lia. Qed.

Lemma size_children (n : AST) :
  size n = S (sum_sizes size (iter_child_nodes n)).
Proof.
  destruct n; simpl; rewrite ?sum_sizes_app, ?opt_size_sum; simpl; lia.
Qed.

Lemma sum_sizes_In (f : AST → nat) (c : AST) (l : list AST) :
  In c l → (f c ≤ sum_sizes f l)%nat.
Proof.
  induction l as [|x l IH]; simpl; [done|].
  intros [->|H]; [lia|]. specialize (IH H). lia.
Qed.

Lemma size_child (c n : AST) :
  In c (iter_child_nodes n) → (size c < size n)%nat.
Proof.
  intros H. rewrite (size_children n).
  pose proof (sum_sizes_In size c _ H). lia.
Qed.

Lemma size_pos (n : AST) : (0 < size n)%nat.
Proof. rewrite size_children. lia. Qed.

(** Induction over a tree through [iter_child_nodes]. *)
Lemma AST_children_ind (P : AST → Prop) :
  (∀ n, (∀ c, In c (iter_child_nodes n) → P c) → P n) → ∀ n, P n.
Proof.
  intros step n.
  remember (size n) as k eqn:Hk. revert n Hk.
  induction k as [k IH] using lt_wf_ind. intros n ->.
  apply step. intros c Hc.
  apply (IH (size c)); [by apply size_child|done].
Qed.

Lemma subnode_trans (a b c : AST) : subnode a b → subnode b c → subnode a c.
Proof.
  intros Hab Hbc. induction Hbc as [|m c' n Hin Hsub IH]; [done|].
  eapply subnode_child; eauto.
Qed.

(** ** The walk reaches exactly the nodes of the subtree *)

Lemma walk_queue_sound (fuel : nat) : ∀ (todo : list AST) (m : AST),
  In m (walk_queue fuel todo) → ∃ t, In t todo ∧ subnode m t.
Proof.
  induction fuel as [|fuel IH]; intros todo m; simpl; [done|].
  destruct todo as [|n rest]; simpl; [done|].
  intros [<-|H].
  - exists n. split; [by left|constructor].
  - destruct (IH _ _ H) as (t & Ht & Hsub).
    apply in_app_or in Ht as [Ht|Ht].
    + exists t. split; [by right|done].
    + exists n. split; [by left|]. by eapply subnode_child.
Qed.

Lemma walk_queue_complete (fuel : nat) : ∀ (todo : list AST),
  (sum_sizes size todo ≤ fuel)%nat →
  ∀ t m, In t todo → subnode m t → In m (walk_queue fuel todo).
Proof.
  induction fuel as [|fuel IH]; intros todo Hfuel t m Ht Hsub.
  - pose proof (sum_sizes_In size t _ Ht). pose proof (size_pos t). lia.
  - destruct todo as [|n rest]; [done|].
    assert (sum_sizes size (rest ++ iter_child_nodes n) ≤ fuel)%nat as Hfuel'.
    { rewrite sum_sizes_app. simpl in Hfuel.
      rewrite (size_children n) in Hfuel. lia. }
    simpl. destruct Ht as [->|Ht].
    + inversion Hsub as [|? c ? Hc Hsub']; subst; [by left|].
      right. apply (IH _ Hfuel' c); [|done].
      apply in_or_app. by right.
    + right. apply (IH _ Hfuel' t); [|done].
      apply in_or_app. by left.
Qed.

Lemma In_walk (m n : AST) : In m (walk n) ↔ subnode m n.
Proof.
  unfold walk. split.
  - intros H. apply walk_queue_sound in H as (t & [<-|[]] & Hsub). done.
  - intros H.
    assert (sum_sizes size [n] ≤ size n)%nat as Hfuel by (simpl; lia).
    apply (walk_queue_complete _ _ Hfuel n); [by left|done].
Qed.

Lemma recovery_signal_spec (stmt : AST) :
  recovery_signal stmt = true ↔ RecoverySignal stmt.
Proof.
  split.
  - unfold recovery_signal. intros H.
    destruct stmt as [| | func args keywords | | | | | |]; try done;
      try constructor.
    destruct func as [id ctx|receiver attr ctx| | | | | | |]; try done.
    + cbn -[str_in String.eqb] in H. rewrite ?orb_false_r in H.
      apply String.eqb_eq in H as ->. constructor.
    + cbn -[str_in String.eqb] in H. rewrite ?orb_false_r in H.
      constructor. unfold str_in in H. apply existsb_exists in H as (x & Hx & Heq).
      apply String.eqb_eq in Heq as ->. exact Hx.
  - intros H. destruct H as [receiver attr ctx args keywords Hin| | |]; try done.
    unfold recovery_signal. cbn -[str_in String.eqb]. rewrite ?orb_false_r.
    apply existsb_exists. exists attr. split; [exact Hin|apply String.eqb_refl].
Qed.

Lemma has_logging_or_reraise_spec (node : AST) :
  _has_logging_or_reraise node = true ↔
  ∃ m, subnode m node ∧ RecoverySignal m.
Proof.
  unfold _has_logging_or_reraise. rewrite existsb_exists. split.
  - intros (m & Hin & Hsig). exists m. by rewrite <- In_walk, <- recovery_signal_spec.
  - intros (m & Hsub & Hsig). exists m. by rewrite In_walk, recovery_signal_spec.
Qed.

(** ** One handler *)

Lemma check_handler_other (self : SilentExceptionVisitor) (node : AST) :
  is_ExceptHandler node = false → check_handler self node = self.
Proof. by destruct node. Qed.

Lemma check_handler_chains (self : SilentExceptionVisitor) (node : AST) :
  check_handler self node =
  {| self_file_path := self_file_path self;
     self_source_lines := self_source_lines self;
     self_issues :=
       self_issues self
       ++ type_chain (self_file_path self) (self_source_lines self) node
       ++ body_chain (self_file_path self) (self_source_lines self) node;
     self_visited := self_visited self |}.
Proof.
  destruct self as [fp src iss vis].
  destruct node as [| | | | | |lineno col ty nm body| |];
    try (cbn; by rewrite app_nil_r).
  unfold check_handler, type_chain, body_chain.
  destruct ty as [[id ctx| | | | | | | |]|];
    try destruct (str_in id broad_names);
    try destruct (_is_silent_handler _);
    destruct (_is_empty_handler _); try destruct (_is_pass_only_handler _);
    unfold append_issue; cbn; by rewrite <- ?app_assoc, ?app_nil_r.
Qed.

Lemma handler_issues_chains (fp : string) (src : list string) (node : AST) :
  handler_issues fp src node = type_chain fp src node ++ body_chain fp src node.
Proof. unfold handler_issues. by rewrite check_handler_chains. Qed.

Lemma check_handler_issues (self : SilentExceptionVisitor) (node : AST) :
  self_issues (check_handler self node) =
  self_issues self
  ++ handler_issues (self_file_path self) (self_source_lines self) node.
Proof. by rewrite check_handler_chains, handler_issues_chains. Qed.

Lemma type_chain_types (fp : string) (src : list string) (node : AST) :
  map issue_type (type_chain fp src node) = [] ∨
  map issue_type (type_chain fp src node) = ["bare_except"] ∨
  map issue_type (type_chain fp src node) = ["broad_exception"].
Proof.
  destruct node as [| | | | | |lineno col ty nm body| |]; try by left.
  unfold type_chain.
  destruct ty as [[id ctx| | | | | | | |]|]; try by left.
  - destruct (_ && _); [right; by right|by left].
  - right. by left.
Qed.

Lemma body_chain_types (fp : string) (src : list string) (node : AST) :
  map issue_type (body_chain fp src node) = [] ∨
  map issue_type (body_chain fp src node) = ["empty_except"] ∨
  map issue_type (body_chain fp src node) = ["pass_only"].
Proof.
  destruct node as [| | | | | |lineno col ty nm body| |]; try by left.
  unfold body_chain.
  destruct (_is_empty_handler _); [right; by left|].
  destruct (_is_pass_only_handler _); [right; by right|by left].
Qed.

(** A handler with no statement, or with [pass] alone, has no recovery
    signal below it when its filter is a name. *)
Lemma quiet_body_no_signal lineno col id ctx nm body :
  let node := ExceptHandler lineno col (Some (Name id ctx)) nm body in
  _is_empty_handler node || _is_pass_only_handler node = true →
  _has_logging_or_reraise node = false.
Proof.
  intros node H. subst node.
  destruct body as [|stmt [|stmt' body]]; [done| |done].
  destruct stmt; done.
Qed.

(** The scenarios of the specification. *)
Example scenario_bare_pass :
  map issue_type (handler_issues "a.py" [] (ExceptHandler 2 (Some 0) None None [Pass]))
  = ["bare_except"; "pass_only"].
Proof. reflexivity. Qed.

Example scenario_broad_pass :
  map issue_type
    (handler_issues "a.py" []
       (ExceptHandler 2 (Some 0) (Some (Name "Exception" Load)) None [Pass]))
  = ["broad_exception"; "pass_only"].
Proof. reflexivity. Qed.

Example scenario_logged :
  handler_issues "a.py" []
    (ExceptHandler 2 (Some 0) (Some (Name "Exception" Load)) (Some "e")
       [Other "Expr"
          [Call (Attribute (Name "logger" Load) "error" Load)
                [Call (Name "str" Load) [Name "e" Load] []] []]])
  = [].
Proof. reflexivity. Qed.

(** A signal inside a function defined in the handler counts as well. *)
Example scenario_signal_in_nested_function :
  handler_issues "a.py" []
    (ExceptHandler 2 (Some 0) (Some (Name "Exception" Load)) None
       [Other "FunctionDef" [Other "arguments" []; Return None]])
  = [].
Proof. reflexivity. Qed.

(** A handler inside the body of a handler is visited after it. *)
Example scenario_nested_handlers :
  let inner := ExceptHandler 5 (Some 4) None None [Raise None None] in
  let outer :=
    ExceptHandler 3 (Some 0) (Some (Name "ValueError" Load)) None
      [Other "Try" [Pass; inner]] in
  self_visited (visit (init "a.py" []) (Other "Module" [Other "Try" [Pass; outer]]))
  = [outer; inner].
Proof. reflexivity. Qed.

(** C1. A handler whose filter is the name [Exception] or [BaseException]
    gets a [broad_exception] issue if and only if no node of its subtree,
    at any depth, is a recovery signal: a call of a method named [debug],
    [info], [warning], [error], [critical] or [exception] on any receiver,
    a call of [print], a [raise] or a [return]. *)
Theorem broad_exception_iff_no_recovery_signal
  (fp : string) (src : list string) (lineno : Z) (col : option Z)
  (id : string) (ctx : expr_context) (nm : option string) (body : list AST) :
  id = "Exception" ∨ id = "BaseException" →
  let node := ExceptHandler lineno col (Some (Name id ctx)) nm body in
  (∃ issue, In issue (handler_issues fp src node) ∧
            issue_type issue = "broad_exception")
  ↔ (∀ m, subnode m node → ¬ RecoverySignal m).
Proof.
  intros Hid node.
  assert (str_in id broad_names = true) as Hbroad by (by destruct Hid as [->| ->]).
  assert (_is_silent_handler node = true ↔
          ∀ m, subnode m node → ¬ RecoverySignal m) as Hsilent.
  { unfold _is_silent_handler.
    destruct (_is_empty_handler node || _is_pass_only_handler node) eqn:Hquiet.
    - apply quiet_body_no_signal in Hquiet. fold node in Hquiet.
      split; [intros _ m Hsub Hsig|done].
      apply not_true_iff_false in Hquiet. apply Hquiet.
      apply has_logging_or_reraise_spec. eauto.
    - rewrite orb_false_l, negb_true_iff, <- not_true_iff_false,
        has_logging_or_reraise_spec.
      split; [intros H m Hsub Hsig; apply H; eauto|].
      intros H (m & Hsub & Hsig). by apply (H m). }
  rewrite <- Hsilent, handler_issues_chains. clear Hsilent. subst node.
  unfold type_chain, body_chain. rewrite Hbroad, andb_true_l.
  split.
  - intros (issue & Hin & Hty).
    destruct (_is_silent_handler _); [done|].
    destruct (_is_empty_handler _); [|destruct (_is_pass_only_handler _)];
      simpl in Hin; repeat (destruct Hin as [<-|Hin]; [done|]); done.
  - intros ->. eexists. split; [by left|done].
Qed.

Lemma broad_exception_iff_no_recovery_signal_witness :
  let node :=
    ExceptHandler 3 (Some 0) (Some (Name "Exception" Load)) (Some "e")
      [Other "Expr"
         [Call (Attribute (Name "logger" Load) "error" Load)
               [Call (Name "str" Load) [Name "e" Load] []] []]] in
  "Exception" = "Exception" ∧
  ((∃ issue, In issue (handler_issues "a.py" ["try:"; "    x()"] node) ∧
             issue_type issue = "broad_exception")
   ↔ (∀ m, subnode m node → ¬ RecoverySignal m)).
Proof.
  split; [reflexivity|].
  apply (broad_exception_iff_no_recovery_signal "a.py" ["try:"; "    x()"]
           3 (Some 0) "Exception" Load (Some "e")).
  left. reflexivity.
Defined.

(** C3. No handler gets both an [empty_except] and a [pass_only] issue. *)
Theorem empty_except_excludes_pass_only
  (fp : string) (src : list string) (node : AST) :
  ¬ (In "empty_except" (map issue_type (handler_issues fp src node)) ∧
     In "pass_only" (map issue_type (handler_issues fp src node))).
Proof.
  rewrite handler_issues_chains, map_app.
  destruct (type_chain_types fp src node) as [-> | [-> | ->]];
    destruct (body_chain_types fp src node) as [-> | [-> | ->]];
    cbn; intros [H1 H2]; intuition discriminate.
Qed.

(** C4. A handler gets between 0 and 4 issues, and at most one of each
    type. *)
Theorem handler_issue_count_bound
  (fp : string) (src : list string) (node : AST) :
  (0 ≤ length (handler_issues fp src node) ≤ 4)%nat ∧
  ∀ ty : string,
    (length (issues_of_type ty (handler_issues fp src node)) ≤ 1)%nat.
Proof.
  assert (∀ ty l, length (issues_of_type ty l)
                  = length (filter (λ t, t = ty) (map issue_type l))) as Hcount.
  { intros ty l. unfold issues_of_type.
    induction l as [|x l IH]; [done|].
    rewrite map_cons, !filter_cons.
    destruct (decide (issue_type x = ty)); cbn; lia. }
  split.
  - rewrite <- (length_map issue_type).
    rewrite handler_issues_chains, map_app.
    destruct (type_chain_types fp src node) as [-> | [-> | ->]];
      destruct (body_chain_types fp src node) as [-> | [-> | ->]]; cbn; lia.
  - intros ty. rewrite Hcount, handler_issues_chains, map_app.
    destruct (type_chain_types fp src node) as [-> | [-> | ->]];
      destruct (body_chain_types fp src node) as [-> | [-> | ->]];
      cbn; rewrite ?filter_cons, ?filter_nil;
      repeat case_decide; cbn; try lia; congruence.
Qed.

(** C10. No handler gets both a [bare_except] and a [broad_exception]
    issue, and with the exclusion of C3 a handler gets at most 2 issues. *)
Theorem bare_excludes_broad_at_most_two
  (fp : string) (src : list string) (node : AST) :
  ¬ (In "bare_except" (map issue_type (handler_issues fp src node)) ∧
     In "broad_exception" (map issue_type (handler_issues fp src node))) ∧
  (length (handler_issues fp src node) ≤ 2)%nat.
Proof.
  rewrite <- (length_map issue_type (handler_issues fp src node)).
  rewrite handler_issues_chains, map_app.
  destruct (type_chain_types fp src node) as [-> | [-> | ->]];
    destruct (body_chain_types fp src node) as [-> | [-> | ->]];
    cbn; (split; [intros [H1 H2]; intuition discriminate|lia]).
Qed.

(** ** The traversal *)

Lemma visit_list_fold_left (l : list AST) : ∀ self : SilentExceptionVisitor,
  (fix visit_list (self : SilentExceptionVisitor) (l : list AST) :=
     match l with
     | [] => self
     | child :: rest => visit_list (visit self child) rest
     end) self l = fold_left visit l self.
Proof. induction l as [|c l IH]; intros self; [done|]. cbn. apply IH. Qed.

(** [visit] dispatches on the class of the node. *)
Lemma visit_dispatch (self : SilentExceptionVisitor) (node : AST) :
  visit self node =
  if is_ExceptHandler node then visit_ExceptHandler self node
  else generic_visit self node.
Proof.
  unfold visit_ExceptHandler, generic_visit.
  destruct node as [| | | [e|] [c|] | [v|] | | lineno col [ty|] nm body | |];
    cbn; rewrite ?visit_list_fold_left, ?fold_left_app; done.
Qed.

Lemma shift_positions_ext (f g : AST → list position) (l : list AST) :
  (∀ c, In c l → f c = g c) →
  ∀ k, shift_positions f k l = shift_positions g k l.
Proof.
  induction l as [|c l IH]; intros Hfg k; [done|].
  cbn. rewrite (Hfg c) by (by left).
  f_equal. apply IH. intros c' Hc'. apply Hfg. by right.
Qed.

Lemma handler_positions_upto_irrel (f1 : nat) : ∀ (f2 : nat) (n : AST),
  (size n ≤ f1)%nat → (size n ≤ f2)%nat →
  handler_positions_upto f1 n = handler_positions_upto f2 n.
Proof.
  induction f1 as [|f1 IH]; intros f2 n H1 H2.
  - pose proof (size_pos n). lia.
  - destruct f2 as [|f2]; [pose proof (size_pos n); lia|].
    cbn. f_equal. apply shift_positions_ext.
    intros c Hc. apply size_child in Hc. apply IH; lia.
Qed.

(** The equation [handler_positions] satisfies. *)
Lemma handler_positions_unfold (n : AST) :
  handler_positions n =
  (if is_ExceptHandler n then [[]] else [])
  ++ shift_positions handler_positions 0 (iter_child_nodes n).
Proof.
  unfold handler_positions at 1.
  destruct (size n) as [|k] eqn:Hk; [pose proof (size_pos n); lia|].
  cbn. f_equal. apply shift_positions_ext.
  intros c Hc. apply size_child in Hc.
  apply handler_positions_upto_irrel; lia.
Qed.

Lemma In_shift_positions (f : AST → list position) (l : list AST) :
  ∀ (k : nat) (p : position),
  In p (shift_positions f k l) ↔
  ∃ i c q, p = (k + i)%nat :: q ∧ nth_error l i = Some c ∧ In q (f c).
Proof.
  induction l as [|c l IH]; intros k p; cbn.
  - split; [done|]. intros ([|i] & c & q & _ & H & _); done.
  - rewrite in_app_iff, in_map_iff, IH. split.
    + intros [(q & <- & Hq)|(i & c' & q & -> & Hi & Hq)].
      * exists 0%nat, c, q. rewrite Nat.add_0_r. done.
      * exists (S i), c', q. rewrite Nat.add_succ_r. done.
    + intros ([|i] & c' & q & -> & Hi & Hq); cbn in Hi.
      * left. inversion Hi; subst. exists q. by rewrite Nat.add_0_r.
      * right. exists i, c', q. by rewrite Nat.add_succ_r.
Qed.

Lemma NoDup_shift_positions (f : AST → list position) (l : list AST) :
  (∀ c, In c l → List.NoDup (f c)) → ∀ k, List.NoDup (shift_positions f k l).
Proof.
  induction l as [|c l IH]; intros Hf k; cbn; [constructor|].
  apply List.NoDup_app.
  - apply Finite.Injective_map_NoDup; [|apply Hf; by left].
    intros q q' Heq. by inversion Heq.
  - apply IH. intros c' Hc'. apply Hf. by right.
  - intros p Hp Hp'. apply in_map_iff in Hp as (q & <- & _).
    apply In_shift_positions in Hp' as (i & c' & q' & Heq & _).
    inversion Heq. lia.
Qed.

(** No position of a handler is listed twice. *)
Lemma NoDup_handler_positions (n : AST) : List.NoDup (handler_positions n).
Proof.
  induction n as [n IH] using AST_children_ind.
  rewrite handler_positions_unfold.
  apply List.NoDup_app.
  - destruct (is_ExceptHandler n); repeat constructor. by intros [].
  - by apply NoDup_shift_positions.
  - intros p Hp Hp'. apply In_shift_positions in Hp' as (i & c & q & -> & _).
    destruct (is_ExceptHandler n); [|done]. by destruct Hp as [?|[]].
Qed.

(** The positions listed are exactly those of the handlers of the tree. *)
Lemma In_handler_positions (p : position) : ∀ n : AST,
  In p (handler_positions n) ↔
  ∃ h, node_at p n = Some h ∧ is_ExceptHandler h = true.
Proof.
  induction p as [|i q IH]; intros n;
    rewrite handler_positions_unfold, in_app_iff, In_shift_positions; cbn.
  - split.
    + intros [H|(i & c & q & H & _)]; [|done].
      exists n. destruct (is_ExceptHandler n); [done|by destruct H].
    + intros (h & [= <-] & ->). left. by left.
  - split.
    + intros [H|(i' & c & q' & [= -> ->] & Hc & Hq)].
      { destruct (is_ExceptHandler n); [by destruct H as [?|[]]|done]. }
      rewrite Hc. by apply IH.
    + intros (h & Hat & Hh). right.
      destruct (nth_error (iter_child_nodes n) i) as [c|] eqn:Hc; [|done].
      exists i, c, q. split_and!; [done..|]. apply IH. eauto.
Qed.

Lemma nodes_at_app (root : AST) (ps qs : list position) :
  nodes_at root (ps ++ qs) = nodes_at root ps ++ nodes_at root qs.
Proof. apply flat_map_app. Qed.

Lemma nodes_at_shift (f : AST → list position) (n : AST) (l : list AST) :
  ∀ k : nat,
  (∀ i c, nth_error l i = Some c →
          nth_error (iter_child_nodes n) (k + i) = Some c) →
  nodes_at n (shift_positions f k l) = flat_map (λ c, nodes_at c (f c)) l.
Proof.
  induction l as [|c l IH]; intros k Hl; [done|].
  cbn [shift_positions]. rewrite nodes_at_app. cbn [flat_map]. f_equal.
  - specialize (Hl 0%nat c eq_refl). rewrite Nat.add_0_r in Hl.
    unfold nodes_at. induction (f c) as [|q qs IHq]; [done|].
    cbn. rewrite Hl. by f_equal.
  - apply IH. intros i c' Hi.
    specialize (Hl (S i) c' Hi). by rewrite Nat.add_succ_r in Hl.
Qed.

(** The handlers of a tree in traversal order: the node itself if it is
    one, then those of its children. *)
Lemma handlers_unfold (n : AST) :
  nodes_at n (handler_positions n) =
  (if is_ExceptHandler n then [n] else [])
  ++ flat_map (λ c, nodes_at c (handler_positions c)) (iter_child_nodes n).
Proof.
  rewrite handler_positions_unfold, nodes_at_app. f_equal.
  - by destruct (is_ExceptHandler n).
  - by apply nodes_at_shift.
Qed.

Lemma Forall2_nodes_at (root : AST) (ps : list position) :
  (∀ p, In p ps → is_Some (node_at p root)) →
  Forall2 (λ p h, node_at p root = Some h) ps (nodes_at root ps).
Proof.
  induction ps as [|p ps IH]; intros Hps; [constructor|].
  cbn. destruct (Hps p) as [h Hh]; [by left|]. rewrite Hh.
  constructor; [done|]. apply IH. intros q Hq. apply Hps. by right.
Qed.

(** What a traversal adds to the visitor: one log entry for each handler,
    followed by the issues of that handler. *)
Lemma visit_spec (n : AST) : ∀ self : SilentExceptionVisitor,
  visit self n =
  {| self_file_path := self_file_path self;
     self_source_lines := self_source_lines self;
     self_issues :=
       self_issues self
       ++ flat_map (handler_issues (self_file_path self) (self_source_lines self))
                   (nodes_at n (handler_positions n));
     self_visited := self_visited self ++ nodes_at n (handler_positions n) |}.
Proof.
  induction n as [n IH] using AST_children_ind. intros self.
  assert (∀ l self,
    (∀ c, In c l → In c (iter_child_nodes n)) →
    fold_left visit l self =
    {| self_file_path := self_file_path self;
       self_source_lines := self_source_lines self;
       self_issues :=
         self_issues self
         ++ flat_map (handler_issues (self_file_path self) (self_source_lines self))
              (flat_map (λ c, nodes_at c (handler_positions c)) l);
       self_visited :=
         self_visited self
         ++ flat_map (λ c, nodes_at c (handler_positions c)) l |}) as Hfold.
  { clear self. induction l as [|c l IHl]; intros self Hl.
    - destruct self. cbn. by rewrite !app_nil_r.
    - cbn [fold_left]. rewrite (IH c) by (apply Hl; by left).
      rewrite IHl by (intros c' Hc'; apply Hl; by right).
      cbn. rewrite flat_map_app, <- !app_assoc. done. }
  rewrite visit_dispatch, handlers_unfold.
  unfold visit_ExceptHandler, generic_visit.
  destruct (is_ExceptHandler n) eqn:Hn; rewrite Hfold by done.
  - rewrite check_handler_chains, <- handler_issues_chains.
    cbn. rewrite <- !app_assoc. done.
  - by cbn.
Qed.

(** C2. The visitor calls [visit_ExceptHandler] once for each handler of
    the tree, at whatever depth and below whatever node it lies: the calls
    correspond one to one to the positions of the handlers, none of which
    occurs twice, and the issues are those of each visited handler taken
    by itself. *)
Theorem every_handler_visited_once
  (fp : string) (src : list string) (tree : AST) :
  let visitor := visit (init fp src) tree in
  List.NoDup (handler_positions tree) ∧
  (∀ p, In p (handler_positions tree) ↔
        ∃ h, node_at p tree = Some h ∧ is_ExceptHandler h = true) ∧
  Forall2 (λ p h, node_at p tree = Some h)
          (handler_positions tree) (self_visited visitor) ∧
  self_issues visitor = flat_map (handler_issues fp src) (self_visited visitor).
Proof.
  cbn zeta. rewrite visit_spec. cbn.
  split_and!.
  - apply NoDup_handler_positions.
  - intros p. apply In_handler_positions.
  - apply Forall2_nodes_at. intros p Hp.
    apply In_handler_positions in Hp as (h & -> & _). by eexists.
  - done.
Qed.

(** ** Sorting *)

Section PySortedFacts.
Context {A K : Type} (leb : K → K → bool) (key : A → K).
Hypothesis leb_total : ∀ a b, leb a b = true ∨ leb b a = true.

Local Abbreviation key_le := (key_le leb key).

Lemma insert_sorted_Permutation (x : A) (l : list A) :
  insert_sorted leb key x l ≡ₚ x :: l.
Proof.
  induction l as [|y l IH]; cbn; [done|].
  destruct (leb (key x) (key y)); [done|].
  rewrite IH. apply perm_swap.
Qed.

Lemma py_sorted_Permutation (l : list A) : py_sorted leb key l ≡ₚ l.
Proof.
  induction l as [|x l IH]; cbn; [done|].
  by rewrite insert_sorted_Permutation, IH.
Qed.

Lemma insert_sorted_HdRel (a x : A) (l : list A) :
  key_le a x → HdRel key_le a l → HdRel key_le a (insert_sorted leb key x l).
Proof.
  intros Hax Hal. destruct l as [|y l]; cbn; [by constructor|].
  destruct (leb (key x) (key y)); constructor; [done|].
  by inversion Hal.
Qed.

Lemma insert_sorted_Sorted (x : A) (l : list A) :
  Sorted key_le l → Sorted key_le (insert_sorted leb key x l).
Proof.
  induction 1 as [|y l Hl IH Hy]; cbn; [by repeat constructor|].
  destruct (leb (key x) (key y)) eqn:Hxy.
  - constructor; [by constructor|]. by constructor.
  - constructor; [done|]. apply insert_sorted_HdRel; [|done].
    unfold key_le. destruct (leb_total (key x) (key y)); congruence.
Qed.

Lemma py_sorted_Sorted (l : list A) : Sorted key_le (py_sorted leb key l).
Proof.
  induction l as [|x l IH]; cbn; [constructor|].
  by apply insert_sorted_Sorted.
Qed.
End PySortedFacts.

(** ** Grouping and counting *)

Lemma by_file_step_lookup (m : gmap string (list SilentExceptionIssue))
  (x : SilentExceptionIssue) (p : string) :
  by_file_step m x !! p =
  if decide (file_path x = p) then Some (default [] (m !! p) ++ [x])
  else m !! p.
Proof.
  unfold by_file_step. case_decide as Hp.
  - subst p. rewrite lookup_alter_eq.
    destruct (m !! file_path x) as [g|] eqn:Hm; cbn.
    + by rewrite Hm.
    + by rewrite lookup_insert_eq.
  - rewrite lookup_alter_ne by done.
    destruct (m !! file_path x); [done|]. by rewrite lookup_insert_ne.
Qed.

Lemma fold_by_file_lookup (l : list SilentExceptionIssue) (p : string) :
  ∀ m : gmap string (list SilentExceptionIssue),
  fold_left by_file_step l m !! p =
  match issues_in p l with
  | [] => m !! p
  | g => Some (default [] (m !! p) ++ g)
  end.
Proof.
  unfold issues_in.
  induction l as [|x l IH]; intros m; [done|].
  cbn [fold_left]. rewrite IH, by_file_step_lookup, filter_cons.
  case_decide as Hp; [|done]. cbn.
  destruct (filter _ l); cbn; by rewrite <- ?app_assoc.
Qed.

(** The group of a file is the list of its issues, in collection order;
    a file without issues has no group. *)
Lemma by_file_lookup (l : list SilentExceptionIssue) (p : string) :
  by_file l !! p = match issues_in p l with [] => None | g => Some g end.
Proof.
  unfold by_file. rewrite fold_by_file_lookup, lookup_empty.
  by destruct (issues_in p l).
Qed.

Lemma by_file_ext (l1 l2 : list SilentExceptionIssue) :
  (∀ p, issues_in p l1 = issues_in p l2) → by_file l1 = by_file l2.
Proof.
  intros H. apply map_eq. intros p. by rewrite !by_file_lookup, H.
Qed.

Lemma fold_issue_counts_lookup (l : list SilentExceptionIssue) (ty : string) :
  ∀ m : gmap string nat,
  fold_left issue_counts_step l m !! ty =
  match length (issues_of_type ty l) with
  | O => m !! ty
  | n => Some (default 0 (m !! ty) + n)%nat
  end.
Proof.
  unfold issues_of_type.
  induction l as [|x l IH]; intros m; [done|].
  cbn [fold_left]. rewrite IH, filter_cons. unfold issue_counts_step.
  case_decide as Hty.
  - subst ty. rewrite lookup_insert_eq. cbn.
    destruct (length (filter _ l)); f_equal; lia.
  - by rewrite lookup_insert_ne.
Qed.

Lemma issue_counts_Permutation (l1 l2 : list SilentExceptionIssue) :
  l1 ≡ₚ l2 → issue_counts l1 = issue_counts l2.
Proof.
  intros H. apply map_eq. intros ty. unfold issue_counts.
  rewrite !fold_issue_counts_lookup. unfold issues_of_type. by rewrite H.
Qed.

Lemma fold_files (l : list SilentExceptionIssue) : ∀ files : gset string,
  fold_left (λ files issue, files ∪ {[file_path issue]}) l files =
  files ∪ list_to_set (map file_path l).
Proof.
  induction l as [|x l IH]; intros files; cbn.
  - by rewrite (right_id_L ∅ (∪)).
  - by rewrite IH, (assoc_L (∪)).
Qed.

Lemma get_files_with_issues_Permutation (l1 l2 : list SilentExceptionIssue) :
  l1 ≡ₚ l2 → get_files_with_issues l1 = get_files_with_issues l2.
Proof.
  intros H. unfold get_files_with_issues. rewrite !fold_files.
  f_equal. f_equal. apply set_eq. intros p.
  rewrite !elem_of_union, !elem_of_list_to_set, !list_elem_of_In.
  by rewrite H.
Qed.

(** Two collections with the same issues for every file, in the same
    order within each file, hold the same issues. *)
Lemma filter_cons_split {A : Type} (P : A → Prop) `{∀ x, Decision (P x)}
  (l : list A) (x : A) (r : list A) :
  filter P l = x :: r →
  ∃ pre post, l = pre ++ x :: post ∧ filter P pre = [] ∧ filter P post = r.
Proof.
  induction l as [|y l IH]; [done|].
  rewrite filter_cons. case_decide as Hy.
  - intros [= -> <-]. by exists [], l.
  - intros (pre & post & -> & Hpre & Hpost)%IH.
    exists (y :: pre), post. split_and!; [done| |done].
    by rewrite filter_cons_False.
Qed.

Lemma same_groups_Permutation (l1 : list SilentExceptionIssue) :
  ∀ l2, (∀ p, issues_in p l1 = issues_in p l2) → l1 ≡ₚ l2.
Proof.
  unfold issues_in.
  induction l1 as [|x l1 IH]; intros l2 Hl.
  - destruct l2 as [|y l2]; [done|].
    specialize (Hl (file_path y)). by rewrite filter_cons_True in Hl.
  - pose proof (Hl (file_path x)) as Hx.
    rewrite filter_cons_True in Hx by done. symmetry in Hx.
    apply filter_cons_split in Hx as (pre & post & -> & Hpre & Hpost).
    rewrite <- Permutation_middle. constructor. apply IH. intros p.
    specialize (Hl p). rewrite filter_app.
    rewrite filter_cons, filter_app, filter_cons in Hl.
    destruct (decide (file_path x = p)) as [<-|Hp].
    + by rewrite Hpre, Hpost.
    + done.
Qed.

Lemma handler_issues_file_path (fp : string) (src : list string) (node : AST) :
  Forall (λ issue, file_path issue = fp) (handler_issues fp src node).
Proof.
  rewrite handler_issues_chains. apply Forall_app. split.
  - destruct node as [| | | | | |lineno col ty nm body| |]; try by constructor.
    unfold type_chain.
    destruct ty as [[id ctx| | | | | | | |]|]; try by repeat constructor.
    destruct (_ && _); by repeat constructor.
  - destruct node as [| | | | | |lineno col ty nm body| |]; try by constructor.
    unfold body_chain.
    destruct (_is_empty_handler _); [by repeat constructor|].
    destruct (_is_pass_only_handler _); by repeat constructor.
Qed.

(** Every issue of a file carries the path of that file. *)
Lemma analyze_file_paths (w : World) (f : string) :
  Forall (λ issue, file_path issue = f) (fst (analyze_file w f)).
Proof.
  unfold analyze_file.
  destruct (read_text w f) as [source_code|e]; [|by constructor].
  destruct (ast_parse w source_code f) as [tree|e|e]; try by constructor.
  rewrite visit_spec. cbn.
  induction (nodes_at tree (handler_positions tree)) as [|n ns IH];
    [by constructor|].
  cbn. apply Forall_app. split; [apply handler_issues_file_path|done].
Qed.

Lemma issues_in_other (p q : string) (l : list SilentExceptionIssue) :
  Forall (λ issue, file_path issue = q) l → p ≠ q → issues_in p l = [].
Proof.
  intros Hl Hpq. unfold issues_in.
  induction Hl as [|x l Hx Hl IH]; [done|].
  rewrite filter_cons_False by congruence. done.
Qed.

(** Collecting two different files in either order gives the same issues
    for every file. *)
Lemma issues_in_swap (pa pb : string) (la lb : list SilentExceptionIssue) :
  pa ≠ pb →
  Forall (λ issue, file_path issue = pa) la →
  Forall (λ issue, file_path issue = pb) lb →
  ∀ p, issues_in p (la ++ lb) = issues_in p (lb ++ la).
Proof.
  intros Hab Ha Hb p. unfold issues_in. rewrite !filter_app.
  destruct (decide (p = pa)) as [->|Hpa].
  - fold (issues_in pa lb). rewrite (issues_in_other pa pb lb) by done.
    by rewrite app_nil_r.
  - fold (issues_in p la). rewrite (issues_in_other p pa la) by done.
    by rewrite app_nil_r.
Qed.

(** C5. Merging the issues of two analyzed files is commutative: taking
    those of [a] before those of [b] or after them gives the same map
    from file to issues, the same sorted list of affected files without
    duplicates, the same counts for each type and in total; and no issue
    is dropped: the group of a file holds all the issues of that file. *)
Theorem aggregation_commutes (w : World) (a b : string) :
  let la := fst (analyze_file w a) in
  let lb := fst (analyze_file w b) in
  by_file (la ++ lb) = by_file (lb ++ la) ∧
  get_files_with_issues (la ++ lb) = get_files_with_issues (lb ++ la) ∧
  issue_counts (la ++ lb) = issue_counts (lb ++ la) ∧
  length (la ++ lb) = length (lb ++ la) ∧
  ∀ issue, In issue (la ++ lb) →
    by_file (la ++ lb) !! file_path issue
    = Some (issues_in (file_path issue) (la ++ lb)).
Proof.
  intros la lb.
  assert (la ++ lb ≡ₚ lb ++ la) as Hperm by apply Permutation_app_comm.
  split_and!.
  - destruct (decide (a = b)) as [->|Hab]; [done|].
    apply by_file_ext, (issues_in_swap a b); [done|apply analyze_file_paths..].
  - by apply get_files_with_issues_Permutation.
  - by apply issue_counts_Permutation.
  - by rewrite Hperm.
  - intros issue Hin. rewrite by_file_lookup.
    destruct (issues_in (file_path issue) (la ++ lb)) eqn:Hg; [|done].
    apply list_elem_of_In in Hin. unfold issues_in in Hg.
    by apply (filter_nil_not_elem_of _ _ issue) in Hg.
Qed.

(** ** The report *)

Lemma Sorted_map {A B : Type} (R : A → A → Prop) (R' : B → B → Prop)
  (f : A → B) (l : list A) :
  (∀ x y, R x y → R' (f x) (f y)) → Sorted R l → Sorted R' (map f l).
Proof.
  intros Hf. induction 1 as [|x l Hl IH Hx]; cbn; constructor; [done|].
  destruct Hx; cbn; constructor. by apply Hf.
Qed.

Lemma Sorted_distinct {A K : Type} (R : A → A → Prop) (key : A → K)
  (l : list A) :
  Sorted R l → List.NoDup (map key l) →
  Sorted (λ x y, R x y ∧ key x ≠ key y) l.
Proof.
  induction 1 as [|x l Hl IH Hx]; cbn; intros Hnd; [constructor|].
  apply List.NoDup_cons_iff in Hnd as [Hnotin Hnd].
  constructor; [by apply IH|].
  destruct Hx as [|y l' Hxy]; constructor. split; [done|].
  intros Heq. apply Hnotin. cbn. by left.
Qed.

Lemma leb_ne_ltb (s1 s2 : string) :
  String.leb s1 s2 = true → s1 ≠ s2 → String.ltb s1 s2 = true.
Proof.
  unfold String.leb, String.ltb. intros Hle Hne.
  destruct (String.compare s1 s2) eqn:Hc; [|done..].
  by apply String.compare_eq_iff in Hc.
Qed.

Lemma Z_leb_total (a b : Z) : (a <=? b) = true ∨ (b <=? a) = true.
Proof. rewrite !Z.leb_le. lia. Qed.

Lemma sorted_items_In {V : Type} (d : gmap string V) (k : string) (v : V) :
  In (k, v) (sorted_items d) ↔ d !! k = Some v.
Proof.
  unfold sorted_items.
  rewrite <- list_elem_of_In, py_sorted_Permutation. apply elem_of_map_to_list.
Qed.

Lemma sorted_items_Sorted {V : Type} (d : gmap string V) :
  Sorted (λ a b, String.ltb (fst a) (fst b) = true) (sorted_items d).
Proof.
  assert (Sorted (λ x y : string * V,
                    String.leb (fst x) (fst y) = true ∧ fst x ≠ fst y)
                 (sorted_items d)) as H.
  { apply Sorted_distinct.
    - apply (py_sorted_Sorted String.leb fst String.leb_total).
    - apply NoDup_ListNoDup. unfold sorted_items.
      change (map fst ?l) with (fst <$> l).
      rewrite py_sorted_Permutation. apply NoDup_fst_map_to_list. }
  rewrite <- (map_id (sorted_items d)). eapply Sorted_map; [|exact H].
  intros x y [Hle Hne]. by apply leb_ne_ltb.
Qed.

(** The sections of the report: the files in increasing order, each with
    all its issues, by increasing line. *)
Lemma report_sections_Sorted (l : list SilentExceptionIssue) :
  Sorted path_lt (report_sections l).
Proof.
  unfold report_sections.
  apply (Sorted_map (λ a b, String.ltb (fst a) (fst b) = true));
    [|apply sorted_items_Sorted].
  by intros [p g] [p' g'].
Qed.

Lemma report_sections_In (l : list SilentExceptionIssue)
  (s : string * list SilentExceptionIssue) :
  In s (report_sections l) →
  Sorted line_le (snd s) ∧ snd s ≡ₚ issues_in (fst s) l ∧ In (fst s) (map file_path l).
Proof.
  unfold report_sections. rewrite in_map_iff.
  intros ([p g] & <- & Hin). apply sorted_items_In in Hin.
  rewrite by_file_lookup in Hin. cbn. split_and!.
  - rewrite <- (map_id (py_sorted _ _ _)).
    eapply Sorted_map;
      [|apply (py_sorted_Sorted Z.leb line_number Z_leb_total)].
    intros x y. unfold line_le. apply Z.leb_le.
  - rewrite py_sorted_Permutation. by destruct (issues_in p l); simplify_eq.
  - destruct (issues_in p l) as [|x g'] eqn:Hg; [done|].
    assert (x ∈ issues_in p l) as Hx by (rewrite Hg; left).
    apply list_elem_of_filter in Hx as [<- Hx].
    apply in_map. by apply list_elem_of_In.
Qed.

(** The report depends on the issues of each file only, not on the order
    in which the files were collected. *)
Lemma format_issue_report_ext (l1 l2 : list SilentExceptionIssue) (s : bool) :
  (∀ p, issues_in p l1 = issues_in p l2) →
  format_issue_report l1 s = format_issue_report l2 s.
Proof.
  intros H. pose proof (same_groups_Permutation _ _ H) as Hperm.
  unfold format_issue_report, report_sections, summary_lines.
  rewrite (by_file_ext _ _ H), (issue_counts_Permutation _ _ Hperm),
    (Permutation_length Hperm).
  destruct l1, l2; try done.
  - by apply Permutation_nil_cons in Hperm.
  - symmetry in Hperm. by apply Permutation_nil_cons in Hperm.
Qed.

(** C6. The rendered report is made of one section for each file. The
    sections are in increasing order of path, the issues of a section are
    those of its file in increasing order of line, and since the sorting
    is done when rendering, two collections that differ only in the order
    of the files render the same. *)
Theorem report_order_at_render_time
  (l1 l2 : list SilentExceptionIssue) (show_snippets : bool) :
  (∀ p, issues_in p l1 = issues_in p l2) →
  (l1 ≠ [] →
   format_issue_report l1 show_snippets =
   String.concat nl
     (["ðŸš¨ Found " +:+ str_of_nat (length l1)
         +:+ " silent exception handling issues:" +:+ nl]
      ++ flat_map (section_lines show_snippets) (report_sections l1)
      ++ summary_lines l1)) ∧
  Sorted path_lt (report_sections l1) ∧
  (∀ s, In s (report_sections l1) →
        Sorted line_le (snd s) ∧ snd s ≡ₚ issues_in (fst s) l1) ∧
  format_issue_report l1 show_snippets = format_issue_report l2 show_snippets.
Proof.
  intros H. split_and!.
  - by destruct l1.
  - apply report_sections_Sorted.
  - intros s Hs. by destruct (report_sections_In l1 s Hs) as (? & ? & _).
  - by apply format_issue_report_ext.
Qed.

Lemma report_order_at_render_time_witness :
  let ia := {| file_path := "a.py"; line_number := 7; column := 4;
               issue_type := "bare_except"; description := "d";
               code_snippet := None |} in
  let ib := {| file_path := "b.py"; line_number := 3; column := 0;
               issue_type := "pass_only"; description := "d";
               code_snippet := None |} in
  format_issue_report [ib; ia] true = format_issue_report [ia; ib] true.
Proof.
  intros ia ib.
  apply (report_order_at_render_time [ib; ia] [ia; ib] true).
  intros p. unfold issues_in. rewrite !filter_cons, !filter_nil. simpl.
  destruct (decide ("b.py" = p)) as [<-|Hb]; [reflexivity|].
  destruct (decide ("a.py" = p)); reflexivity.
Defined.

(** ** The driver *)

Lemma analyze_files_acc (w : World) (pats : list string) (files : list string) :
  ∀ (acc : list SilentExceptionIssue) (err : list string),
  analyze_files w pats files acc err =
  (acc ++ fst (analyze_files w pats files [] []),
   err ++ snd (analyze_files w pats files [] [])).
Proof.
  induction files as [|f files IH]; intros acc err; cbn.
  - by rewrite !app_nil_r.
  - destruct (excluded pats f); [apply IH|].
    destruct (analyze_file w f) as [issues e].
    rewrite IH, (IH ([] ++ issues)). cbn. by rewrite !app_assoc.
Qed.

Lemma analyze_files_app (w : World) (pats : list string) (l1 l2 : list string) :
  analyze_files w pats (l1 ++ l2) [] [] =
  (fst (analyze_files w pats l1 [] []) ++ fst (analyze_files w pats l2 [] []),
   snd (analyze_files w pats l1 [] []) ++ snd (analyze_files w pats l2 [] [])).
Proof.
  induction l1 as [|f l1 IH]; cbn.
  - by destruct (analyze_files w pats l2 [] []).
  - destruct (excluded pats f); [done|].
    destruct (analyze_file w f) as [issues e]. cbn.
    rewrite analyze_files_acc, IH, (analyze_files_acc _ _ l1 issues e). cbn.
    by rewrite !app_assoc.
Qed.

(** The issues of a directory are those of its files that are not
    excluded, in the order the files are found. *)
Lemma analyze_files_issues (w : World) (pats : list string) (files : list string) :
  fst (analyze_files w pats files [] []) =
  flat_map (λ f, fst (analyze_file w f))
           (filter (λ f, excluded pats f = false) files).
Proof.
  induction files as [|f files IH]; [done|].
  cbn [analyze_files]. rewrite filter_cons.
  destruct (excluded pats f) eqn:Hf; case_decide; try done.
  destruct (analyze_file w f) as [issues e] eqn:Hfile.
  rewrite analyze_files_acc. cbn. by rewrite IH, Hfile.
Qed.

Lemma collect_issues (w : World) (args : Args) :
  fst (collect w args) =
  flat_map (λ f, fst (analyze_file w f)) (analyzed_files w args).
Proof.
  unfold collect, analyzed_files.
  destruct (path_is_file w (path args)).
  - cbn. by rewrite app_nil_r.
  - unfold analyze_directory. cbn [default]. apply analyze_files_issues.
Qed.

Lemma length_flat_map {A B : Type} (f : A → list B) (l : list A) :
  length (flat_map f l) = list_sum (map (λ x, length (f x)) l).
Proof.
  induction l as [|x l IH]; [done|]. cbn. by rewrite length_app, IH.
Qed.

Lemma main_exit_status (w : World) (args : Args) :
  path_exists w (path args) = true →
  exit_status (main w args) = Z.of_nat (length (fst (collect w args))) mod 256.
Proof.
  intros Hex. unfold main. rewrite Hex. cbn.
  destruct (collect w args) as [issues err].
  by destruct (files_only args), (parallel_fix args).
Qed.

(** In every mode the exit status is the number of issues of all the
    analyzed files together, reduced modulo 256; below 256 issues it is
    that number, and then it is 0 exactly when no issue was found. *)
Lemma exit_status_modulo_256 (w : World) (args : Args) :
  path_exists w (path args) = true →
  let total :=
    list_sum (map (λ f, length (fst (analyze_file w f))) (analyzed_files w args)) in
  exit_status (main w args) = Z.of_nat total mod 256 ∧
  ((total < 256)%nat →
   exit_status (main w args) = Z.of_nat total ∧
   (exit_status (main w args) = 0 ↔ total = 0%nat)).
Proof.
  intros Hex total.
  assert (exit_status (main w args) = Z.of_nat total mod 256) as ->.
  { by rewrite (main_exit_status w args Hex), collect_issues, length_flat_map. }
  split; [done|]. intros Hlt.
  rewrite Z.mod_small by lia. split; [done|lia].
Qed.

(** C7. With 256 issues the exit status is 0 in every output mode: the
    status is the number of issues only up to 255, and a status of 0 does
    not mean that no issue was found. *)
Theorem exit_status_zero_with_256_issues (ns j fo pf : bool) :
  let args := Build_Args "big.py" ns [] j fo pf in
  length (fst (collect wrap_world args)) = 256%nat ∧
  exit_status (main wrap_world args) = 0.
Proof.
  intros args.
  assert (length (fst (collect wrap_world args)) = 256%nat) as Hlen
    by (lazy; reflexivity).
  split; [exact Hlen|].
  rewrite (main_exit_status wrap_world args eq_refl), Hlen. reflexivity.
Qed.

(** C8. A file that does not parse is not visited: its analysis returns no
    issue and prints one line on the error stream, the syntax error line
    when the parser raises [SyntaxError], and in a directory the files
    before and after it are analyzed as they are without it. *)
Theorem parse_failure_is_isolated
  (w : World) (f source_code e diagnostic : string) :
  read_text w f = ReadOk source_code →
  (ast_parse w source_code f = SyntaxError e ∧
   diagnostic = "Syntax error in " +:+ f +:+ ": " +:+ e) ∨
  (ast_parse w source_code f = ParseError e ∧
   diagnostic = "Error analyzing " +:+ f +:+ ": " +:+ e) →
  analyze_file w f = ([], [diagnostic]) ∧
  ∀ (directory : string) (exclude_patterns : option (list string))
    (before after : list string),
    let pats := default default_exclude_patterns exclude_patterns in
    rglob_py w directory = before ++ f :: after →
    excluded pats f = false →
    fst (analyze_directory w directory exclude_patterns) =
      fst (analyze_files w pats (before ++ after) [] []) ∧
    snd (analyze_directory w directory exclude_patterns) =
      snd (analyze_files w pats before [] [])
      ++ [diagnostic]
      ++ snd (analyze_files w pats after [] []).
Proof.
  intros Hread Hparse.
  assert (analyze_file w f = ([], [diagnostic])) as Hfile.
  { unfold analyze_file. rewrite Hread.
    by destruct Hparse as [[-> ->]|[-> ->]]. }
  split; [done|].
  intros directory exclude_patterns before after pats Hglob Hexcl.
  unfold analyze_directory. fold pats. rewrite Hglob, !analyze_files_app.
  cbn [analyze_files fst snd]. rewrite Hexcl, Hfile.
  rewrite (analyze_files_acc _ _ after). cbn. done.
Qed.

Lemma parse_failure_is_isolated_witness :
  analyze_file sample_world "proj/b.py" =
    ([], ["Syntax error in proj/b.py: invalid syntax (b.py, line 1)"]) ∧
  fst (analyze_directory sample_world "proj" None) =
    fst (analyze_file sample_world "proj/a.py").
Proof.
  destruct (parse_failure_is_isolated sample_world "proj/b.py" "def ("
              "invalid syntax (b.py, line 1)"
              "Syntax error in proj/b.py: invalid syntax (b.py, line 1)"
              eq_refl (or_introl (conj eq_refl eq_refl))) as [Hfile Hdir].
  split; [exact Hfile|].
  destruct (Hdir "proj" None ["proj/a.py"] [] eq_refl eq_refl) as [Hissues _].
  exact Hissues.
Defined.

Lemma advice_distinct (n : nat) :
  parallel_advice n ≠ sequential_advice n ∧
  parallel_advice n ≠ no_fix_advice ∧
  sequential_advice n ≠ no_fix_advice.
Proof. split_and!; intros H; inversion H. Qed.

(** C9. With [--parallel-fix] (and without [--files-only], which is
    handled first), the output is the count line, the affected files, and
    then the parallel advice exactly when more than 5 files are affected,
    the sequential advice exactly when 1 to 5 are, and the line saying
    that no file needs fixing exactly when none is. *)
Theorem parallel_fix_advice (w : World) (args : Args) :
  path_exists w (path args) = true →
  files_only args = false →
  parallel_fix args = true →
  let issues := fst (collect w args) in
  let files := get_files_with_issues issues in
  let n := length files in
  ∃ advice,
    stdout (main w args) =
      ["Found " +:+ str_of_nat (length issues) +:+ " issues in "
         +:+ str_of_nat n +:+ " files:"]
      ++ map (λ file_path, "  " +:+ file_path) files ++ advice ∧
    (advice = parallel_advice n ↔ (5 < n)%nat) ∧
    (advice = sequential_advice n ↔ (1 ≤ n ≤ 5)%nat) ∧
    (advice = no_fix_advice ↔ n = 0%nat).
Proof.
  intros Hex Hfo Hpf issues files n. subst issues files n.
  unfold main. rewrite Hex, Hfo, Hpf. cbn [negb].
  destruct (collect w args) as [issues err]. cbn [fst stdout].
  set (n := length (get_files_with_issues issues)).
  destruct (advice_distinct n) as (Hps & Hpn & Hsn).
  eexists. split; [reflexivity|].
  destruct (5 <? n)%nat eqn:H5; [|destruct (0 <? n)%nat eqn:H0];
    rewrite ?Nat.ltb_lt, ?Nat.ltb_ge in *;
    split_and!; split; intros H; try done; try lia;
    try (symmetry in H; done).
Qed.

Lemma parallel_fix_advice_witness :
  ∃ advice,
    stdout (main sample_world (sample_args false true)) =
      ["Found 2 issues in 1 files:"; "  proj/a.py"] ++ advice ∧
    (advice = sequential_advice 1 ↔ (1 ≤ 1 ≤ 5)%nat).
Proof.
  destruct (parallel_fix_advice sample_world (sample_args false true)
              eq_refl eq_refl eq_refl) as (advice & Hout & _ & Hseq & _).
  exists advice. split; [exact Hout|exact Hseq].
Defined.

(** The list of affected files: every file with an issue, once, in
    increasing order. *)
Lemma get_files_with_issues_spec (issues : list SilentExceptionIssue) :
  List.NoDup (get_files_with_issues issues) ∧
  Sorted (λ a b, String.ltb a b = true) (get_files_with_issues issues) ∧
  ∀ p, In p (get_files_with_issues issues) ↔
       ∃ issue, In issue issues ∧ file_path issue = p.
Proof.
  unfold get_files_with_issues. rewrite fold_files, (left_id_L ∅ (∪)).
  set (files := list_to_set (map file_path issues) : gset string).
  assert (List.NoDup (py_sorted String.leb id (elements files))) as Hnd.
  { apply NoDup_ListNoDup. rewrite py_sorted_Permutation. apply NoDup_elements. }
  split_and!; [done| |].
  - pose proof (Sorted_distinct _ id _
      (py_sorted_Sorted String.leb id String.leb_total (elements files))) as H.
    rewrite map_id in H. specialize (H Hnd).
    rewrite <- (map_id (py_sorted _ _ _)). eapply Sorted_map; [|exact H].
    intros x y [Hle Hne]. by apply leb_ne_ltb.
  - intros p. rewrite <- list_elem_of_In, py_sorted_Permutation, elem_of_elements.
    unfold files. rewrite elem_of_list_to_set, list_elem_of_In, in_map_iff.
    split; intros (issue & H1 & H2); by exists issue.
Qed.

(** ** The order of enumeration of a dictionary or a set does not matter

    Python enumerates a [dict] in insertion order and a [set] in an order
    of its own; [map_to_list] and [elements] have theirs.  Sorting by
    distinct keys gives the same list from any of them. *)

Lemma ltb_lt (a b : string) : String.ltb a b = true ↔ OrderedTypeEx.String_as_OT.lt a b.
Proof.
  rewrite <- OrderedTypeEx.String_as_OT.cmp_lt.
  unfold String.ltb, OrderedTypeEx.String_as_OT.cmp.
  by destruct (String.compare a b).
Qed.

Lemma StronglySorted_unique {A : Type} (R : A → A → Prop) :
  (∀ x, ¬ R x x) → (∀ x y z, R x y → R y z → R x z) →
  ∀ l l', StronglySorted R l → StronglySorted R l' → l ≡ₚ l' → l = l'.
Proof.
  intros Hirr Htrans l.
  induction l as [|x t IH]; intros l' Hl Hl' Hperm.
  - by apply Permutation_nil in Hperm.
  - destruct l' as [|y t']; [by apply Permutation_sym, Permutation_nil in Hperm|].
    apply StronglySorted_inv in Hl as [Ht Hx].
    apply StronglySorted_inv in Hl' as [Ht' Hy].
    rewrite List.Forall_forall in Hx, Hy.
    assert (x = y) as ->.
    { assert (In x (y :: t')) as Hxin
        by (apply (Permutation_in _ Hperm); by left).
      assert (In y (x :: t)) as Hyin
        by (apply (Permutation_in _ (Permutation_sym Hperm)); by left).
      destruct Hxin as [->|Hxin]; [done|].
      destruct Hyin as [->|Hyin]; [done|].
      destruct (Hirr x). eauto. }
    f_equal. apply IH; [done..|]. by apply Permutation_cons_inv in Hperm.
Qed.

Lemma py_sorted_any_order {A : Type} (key : A → string) (l l' : list A) :
  l ≡ₚ l' → List.NoDup (map key l) →
  py_sorted String.leb key l = py_sorted String.leb key l'.
Proof.
  intros Hperm Hnd.
  set (R := λ x y : A, String.ltb (key x) (key y) = true).
  assert (∀ x y z, R x y → R y z → R x z) as Htrans.
  { unfold R. intros x y z. rewrite !ltb_lt.
    apply OrderedTypeEx.String_as_OT.lt_trans. }
  assert (∀ k, k ≡ₚ l → StronglySorted R (py_sorted String.leb key k)) as Hs.
  { intros k Hk. apply Sorted_StronglySorted; [exact Htrans|].
    rewrite <- (map_id (py_sorted _ _ _)).
    eapply Sorted_map;
      [|apply (Sorted_distinct _ key _
                 (py_sorted_Sorted String.leb key String.leb_total k))].
    - intros x y [Hle Hne]. by apply leb_ne_ltb.
    - eapply Permutation_NoDup; [|exact Hnd].
      apply Permutation_map. by rewrite py_sorted_Permutation, Hk. }
  apply (StronglySorted_unique R); [|exact Htrans|by apply Hs..|].
  - unfold R. intros x. rewrite ltb_lt. intros H.
    by apply OrderedTypeEx.String_as_OT.lt_not_eq in H.
  - by rewrite !py_sorted_Permutation.
Qed.

Lemma sorted_items_any_order {V : Type} (d : gmap string V)
  (items : list (string * V)) :
  items ≡ₚ map_to_list d → py_sorted String.leb fst items = sorted_items d.
Proof.
  intros H. apply py_sorted_any_order; [done|].
  apply NoDup_ListNoDup. change (map fst items) with (fst <$> items).
  rewrite H. apply NoDup_fst_map_to_list.
Qed.

(** * Further properties of the code *)

(** ** The snippet *)

Lemma get_code_snippet_lines (src : list string) (n : Z) :
  _get_code_snippet src n = String.concat nl (snippet_lines src n).
Proof. reflexivity. Qed.

Lemma prefix_append (p s : string) : String.prefix p (p +:+ s) = true.
Proof.
  induction p as [|a p IH].
  - by destruct s.
  - change (String a p +:+ s) with (String a (p +:+ s)). cbn [String.prefix].
    by destruct (ascii_dec a a).
Qed.

#[local] Instance marked_dec (line : string) : Decision (marked line).
Proof. unfold marked. apply _. Defined.

Lemma filter_map_none {A B : Type} (P : B → Prop) `{∀ x, Decision (P x)}
  (f : A → B) (l : list A) :
  (∀ x, x ∈ l → ¬ P (f x)) → filter P (map f l) = [].
Proof.
  induction l as [|x l IH]; intros Hl; [done|].
  cbn [map]. rewrite filter_cons_False by (apply Hl; left).
  apply IH. intros y Hy. apply Hl. by right.
Qed.

(** X1. A snippet is its lines joined by line feeds, and has at most 5 lines. When the line of the handler is a
    line of the file, exactly one line of the snippet is marked: the one
    that shows that line number and the text of that line without its
    trailing white space. Otherwise no line is marked. *)
Theorem snippet_marks_handler_line (src : list string) (n : Z) :
  _get_code_snippet src n = String.concat nl (snippet_lines src n) ∧
  (length (snippet_lines src n) ≤ 5)%nat ∧
  filter marked (snippet_lines src n) =
  if decide (1 ≤ n ≤ Z.of_nat (length src)) then
    [">>> " +:+ fmt_3d n +:+ ": " +:+ rstrip (nth (Z.to_nat (n - 1)) src "")]
  else [].
Proof.
  unfold snippet_lines. cbv zeta.
  set (start := Z.max 0 (n - 2 - 1)).
  set (end_ := Z.min (Z.of_nat (length src)) (n + 2)).
  set (f := λ i : Z, _).
  split; [reflexivity|]. split.
  - rewrite length_map, length_seqZ. lia.
  - assert (∀ i, i ≠ n - 1 → ¬ marked (f i)) as Hother.
    { intros i Hi. unfold f, marked.
      destruct (Z.eqb_spec i (n - 1)); [done|]. by cbn. }
    case_decide as Hn.
    + replace (end_ - start) with ((n - 1 - start) + (1 + (end_ - n))) by lia.
      rewrite seqZ_app, seqZ_app by lia.
      replace (start + (n - 1 - start)) with (n - 1) by lia.
      rewrite !map_app, !filter_app.
      rewrite (filter_map_none marked f (seqZ start (n - 1 - start)))
        by (intros i Hi%elem_of_seqZ; apply Hother; lia).
      rewrite (filter_map_none marked f (seqZ (n - 1 + 1) (end_ - n)))
        by (intros i Hi%elem_of_seqZ; apply Hother; lia).
      change (seqZ (n - 1) 1) with [0 + (n - 1)].
      rewrite Z.add_0_l, app_nil_r. cbn [map app].
      rewrite filter_cons_True, filter_nil.
      * unfold f. rewrite Z.eqb_refl. by replace (n - 1 + 1) with n by lia.
      * unfold marked, f. rewrite Z.eqb_refl. apply prefix_append.
    + apply filter_map_none. intros i Hi%elem_of_seqZ. apply Hother. lia.
Qed.

(** X2. The snippet is the empty string exactly when its window is empty:
    the file has no line, or the line number is 3 or more past the last
    line, or it is -2 or less. *)
Theorem snippet_empty_iff (src : list string) (n : Z) :
  _get_code_snippet src n = "" ↔
  Z.min (Z.of_nat (length src)) (n + 2) ≤ Z.max 0 (n - 3).
Proof.
  unfold _get_code_snippet. cbv zeta.
  replace (n - 2 - 1) with (n - 3) by lia.
  set (start := Z.max 0 (n - 3)).
  set (end_ := Z.min (Z.of_nat (length src)) (n + 2)).
  split.
  - intros H. destruct (Z.le_gt_cases end_ start) as [|Hlt]; [done|].
    rewrite seqZ_cons in H by lia. cbn [map String.concat] in H.
    destruct (map _ (seqZ _ _)); destruct (start =? n - 1); discriminate.
  - intros H. by rewrite seqZ_nil by lia.
Qed.

(** ** What an issue carries *)

Lemma handler_issue_fields (fp : string) (src : list string)
  (lineno : Z) (col : option Z) (ty : option AST) (nm : option string)
  (body : list AST) (issue : SilentExceptionIssue) :
  In issue (handler_issues fp src (ExceptHandler lineno col ty nm body)) →
  file_path issue = fp ∧ line_number issue = lineno ∧
  column issue = default 0 col ∧
  code_snippet issue = Some (_get_code_snippet src lineno) ∧
  In (issue_type issue) issue_types.
Proof.
  rewrite handler_issues_chains, in_app_iff.
  unfold type_chain, body_chain, issue_types.
  intros [H|H].
  - destruct ty as [[id ctx| | | | | | | |]|]; try done.
    + destruct (_ && _); [|done]. destruct H as [<-|[]]. cbn. tauto.
    + destruct H as [<-|[]]. cbn. tauto.
  - destruct (_is_empty_handler _); [|destruct (_is_pass_only_handler _)];
      [..|done]; destruct H as [<-|[]]; cbn; tauto.
Qed.

(** X3. Every issue the visitor reports for a tree points at an exception
    handler of that tree: it has the path given to the visitor, the line
    and the column of the handler (column 0 when the node has none), the
    snippet around that line, and one of the four issue types. *)
Theorem issues_point_at_handlers
  (fp : string) (src : list string) (tree : AST) (issue : SilentExceptionIssue) :
  In issue (self_issues (visit (init fp src) tree)) →
  ∃ p lineno col ty nm body,
    node_at p tree = Some (ExceptHandler lineno col ty nm body) ∧
    file_path issue = fp ∧ line_number issue = lineno ∧
    column issue = default 0 col ∧
    code_snippet issue = Some (_get_code_snippet src lineno) ∧
    In (issue_type issue) issue_types.
Proof.
  rewrite visit_spec. cbn. rewrite in_flat_map.
  intros (h & Hh & Hissue). unfold nodes_at in Hh.
  apply in_flat_map in Hh as (p & Hp & Hh).
  apply In_handler_positions in Hp as (h' & Hat & Hhandler).
  rewrite Hat in Hh. destruct Hh as [->|[]].
  destruct h as [| | | | | |lineno col ty nm body| |]; try done.
  exists p, lineno, col, ty, nm, body. split; [done|].
  by apply (handler_issue_fields fp src lineno col ty nm body).
Qed.

Lemma issues_point_at_handlers_witness :
  ∃ p lineno col ty nm body,
    node_at p sample_tree = Some (ExceptHandler lineno col ty nm body) ∧
    "a.py" = "a.py" ∧ 2 = lineno ∧ 0 = default 0 col ∧
    Some (_get_code_snippet ["try: x()"; "except: pass"] 2)
      = Some (_get_code_snippet ["try: x()"; "except: pass"] lineno) ∧
    In "pass_only" issue_types.
Proof.
  apply (issues_point_at_handlers "a.py" ["try: x()"; "except: pass"] sample_tree
           {| file_path := "a.py"; line_number := 2; column := 0;
              issue_type := "pass_only";
              description := "Exception handler only contains 'pass' statement";
              code_snippet :=
                Some (_get_code_snippet ["try: x()"; "except: pass"] 2) |}).
  vm_compute. right. left. reflexivity.
Defined.

(** X4. Only a filter that is the plain name [Exception] or
    [BaseException] makes a handler a broad catch: with any other filter
    (another name, a dotted name, a tuple of classes) the handler gets
    neither a [bare_except] nor a [broad_exception] issue, whatever its
    body. *)
Theorem other_filters_are_never_broad
  (fp : string) (src : list string) (lineno : Z) (col : option Z)
  (filter_ : AST) (nm : option string) (body : list AST) :
  (∀ ctx, filter_ ≠ Name "Exception" ctx ∧ filter_ ≠ Name "BaseException" ctx) →
  ∀ issue,
    In issue (handler_issues fp src
                (ExceptHandler lineno col (Some filter_) nm body)) →
    issue_type issue = "empty_except" ∨ issue_type issue = "pass_only".
Proof.
  intros Hfilter issue. rewrite handler_issues_chains, in_app_iff.
  intros [H|H].
  - unfold type_chain in H.
    destruct filter_ as [id ctx| | | | | | | |]; try done.
    destruct (str_in id broad_names) eqn:Hid; [|done].
    unfold str_in, broad_names in Hid. cbn in Hid.
    destruct (Hfilter ctx) as [H1 H2].
    destruct (String.eqb_spec id "Exception") as [->|_]; [done|].
    destruct (String.eqb_spec id "BaseException") as [->|_]; [done|].
    done.
  - unfold body_chain in H.
    destruct (_is_empty_handler _); [|destruct (_is_pass_only_handler _)];
      [..|done]; destruct H as [<-|[]]; cbn; tauto.
Qed.

Lemma other_filters_are_never_broad_witness :
  "pass_only" = "empty_except" ∨ "pass_only" = "pass_only".
Proof.
  refine (other_filters_are_never_broad "a.py" [] 2 (Some 0)
           (Other "Tuple" [Name "Exception" Load; Name "OSError" Load])
           None [Pass] _
           {| file_path := "a.py"; line_number := 2; column := 0;
              issue_type := "pass_only";
              description := "Exception handler only contains 'pass' statement";
              code_snippet := Some "" |} _).
  - intros ctx. split; discriminate.
  - vm_compute. left. reflexivity.
Defined.

(** X5. A recovery signal counts for every enclosing node: if the search
    succeeds on a node, it succeeds on each node that has it in its
    subtree, so a handler nested in another one that logs or raises again
    also silences the report of the outer one. *)
Theorem recovery_signal_counts_upwards (inner outer : AST) :
  subnode inner outer →
  _has_logging_or_reraise inner = true →
  _has_logging_or_reraise outer = true.
Proof.
  intros Hsub. rewrite !has_logging_or_reraise_spec.
  intros (m & Hm & Hsig). exists m. split; [|done].
  by apply (subnode_trans m inner outer).
Qed.

Lemma recovery_signal_counts_upwards_witness :
  let inner := ExceptHandler 5 (Some 4) None None [Raise None None] in
  let outer :=
    ExceptHandler 3 (Some 0) (Some (Name "Exception" Load)) None
      [Other "Try" [Pass; inner]] in
  _has_logging_or_reraise outer = true.
Proof.
  intros inner outer.
  apply (recovery_signal_counts_upwards inner outer).
  - apply (subnode_child inner (Other "Try" [Pass; inner]) outer).
    + simpl. right. left. reflexivity.
    + apply (subnode_child inner inner (Other "Try" [Pass; inner])).
      * simpl. right. left. reflexivity.
      * apply subnode_self.
  - reflexivity.
Defined.

(** X6. What a traversal reports does not depend on what the visitor has
    recorded before: the issues after visiting a tree are the earlier ones
    followed by those a fresh visitor reports for the tree, and the path
    and the source lines of the visitor are unchanged. *)
Theorem visit_appends_fresh_issues (self : SilentExceptionVisitor) (tree : AST) :
  self_issues (visit self tree) =
    self_issues self
    ++ self_issues (visit (init (self_file_path self) (self_source_lines self)) tree) ∧
  self_file_path (visit self tree) = self_file_path self ∧
  self_source_lines (visit self tree) = self_source_lines self.
Proof. by rewrite (visit_spec tree self), (visit_spec tree (init _ _)). Qed.



(** ** Exclusion patterns *)

Lemma prefix_spec (p : string) : ∀ s : string,
  String.prefix p s = true ↔ ∃ post, s = p +:+ post.
Proof.
  induction p as [|a p IH]; intros s.
  - split; [intros _; by exists s|intros _; by destruct s].
  - destruct s as [|b s]; cbn [String.prefix].
    + split; [done|]. by intros (post & ?).
    + destruct (ascii_dec a b) as [->|Hab].
      * rewrite IH. split; intros (post & Hpost); exists post.
        -- by rewrite Hpost.
        -- by injection Hpost.
      * split; [done|]. intros (post & Hpost). by injection Hpost.
Qed.

Lemma str_contains_spec (needle s : string) :
  str_contains needle s = true ↔ ∃ pre post, s = pre +:+ needle +:+ post.
Proof.
  split.
  - induction s as [|a s IH]; cbn [str_contains]; rewrite orb_true_iff.
    + intros [H|H]; [|done]. apply prefix_spec in H as (post & ->).
      by exists "", post.
    + intros [H|H].
      * apply prefix_spec in H as (post & ->). by exists "", post.
      * destruct (IH H) as (pre & post & ->). by exists (String a pre), post.
  - intros (pre & post & ->). induction pre as [|a pre IH].
    + assert (String.prefix needle (needle +:+ post) = true) as H
        by apply prefix_append.
      change ("" +:+ needle +:+ post) with (needle +:+ post).
      destruct (needle +:+ post); cbn [str_contains]; by rewrite H.
    + change (String a pre +:+ needle +:+ post)
        with (String a (pre +:+ needle +:+ post)).
      cbn [str_contains]. rewrite IH. apply orb_true_r.
Qed.

(** X8. A directory run reports the issues of the files found whose path
    no pattern excludes, file after file in the order they are found; a
    pattern excludes a path exactly when it occurs in it as a substring,
    anywhere, so [.git] also excludes what lies under [.github]. *)
Theorem directory_issues_of_unexcluded_files (w : World) (directory : string)
  (exclude_patterns : option (list string)) :
  let pats := default default_exclude_patterns exclude_patterns in
  fst (analyze_directory w directory exclude_patterns) =
    flat_map (λ f, fst (analyze_file w f))
      (filter (λ f, excluded pats f = false) (rglob_py w directory)) ∧
  ∀ f, excluded pats f = true ↔
       ∃ pattern pre post, In pattern pats ∧ f = pre +:+ pattern +:+ post.
Proof.
  intros pats. split; [apply analyze_files_issues|].
  intros f. unfold excluded. rewrite existsb_exists. split.
  - intros (pattern & Hin & (pre & post & ->)%str_contains_spec). eauto.
  - intros (pattern & pre & post & Hin & ->). exists pattern.
    split; [done|]. apply str_contains_spec. eauto.
Qed.

Lemma analyze_files_nothing (w : World) (pats files : list string) :
  (∀ f, In f files → excluded pats f = true) →
  analyze_files w pats files [] [] = ([], []).
Proof.
  induction files as [|f files IH]; intros H; [done|].
  cbn [analyze_files]. rewrite (H f) by (by left).
  apply IH. intros g Hg. apply H. by right.
Qed.

(** X9. The empty string is a substring of every path: when it is among
    the [--exclude] patterns, a directory run analyzes no file at all and
    ends with status 0, without an issue or a diagnostic. *)
Theorem empty_pattern_excludes_everything (w : World) (args : Args) :
  path_exists w (path args) = true →
  path_is_file w (path args) = false →
  In "" (exclude args) →
  collect w args = ([], []) ∧ exit_status (main w args) = 0.
Proof.
  intros Hex Hfile Hin.
  assert (collect w args = ([], [])) as Hcollect.
  { unfold collect. rewrite Hfile. unfold analyze_directory. cbn [default].
    apply analyze_files_nothing. intros f _. unfold excluded.
    apply existsb_exists. exists "". split.
    - apply in_or_app. by right.
    - apply str_contains_spec. by exists "", f. }
  split; [done|]. by rewrite (main_exit_status w args Hex), Hcollect.
Qed.

Lemma empty_pattern_excludes_everything_witness :
  let args :=
    {| path := "proj"; no_snippets := false; exclude := [""]; json := false;
       files_only := false; parallel_fix := false |} in
  collect sample_world args = ([], []) ∧ exit_status (main sample_world args) = 0.
Proof.
  intros args.
  apply (empty_pattern_excludes_everything sample_world args);
    [reflexivity|reflexivity|].
  simpl. left. reflexivity.
Defined.

Lemma flat_map_filter_sublist {A B : Type} (g : A → list B)
  (P Q : A → Prop) `{∀ x, Decision (P x)} `{∀ x, Decision (Q x)} (l : list A) :
  (∀ x, P x → Q x) →
  flat_map g (filter P l) `sublist_of` flat_map g (filter Q l).
Proof.
  intros HPQ. induction l as [|x l IH]; [done|].
  rewrite !filter_cons.
  destruct (decide (P x)) as [HP|HP].
  - rewrite decide_True by auto. cbn. by apply sublist_app.
  - destruct (decide (Q x)); [|done]. cbn. by apply sublist_inserts_l.
Qed.

(** X10. More patterns never add issues: the issues found with a larger
    set of patterns are among those found with a smaller one, in the same
    order. *)
Theorem more_patterns_fewer_issues (w : World) (pats pats' files : list string) :
  (∀ pattern, In pattern pats → In pattern pats') →
  fst (analyze_files w pats' files [] [])
    `sublist_of` fst (analyze_files w pats files [] []).
Proof.
  intros Hincl. rewrite !analyze_files_issues.
  apply flat_map_filter_sublist. intros f Hf.
  destruct (excluded pats f) eqn:Hex; [|done].
  unfold excluded in *. apply existsb_exists in Hex as (pattern & Hin & Hp).
  rewrite <- Hf. symmetry. apply existsb_exists. eauto.
Qed.

Lemma more_patterns_fewer_issues_witness :
  fst (analyze_files sample_world [".git"; "a.py"] ["proj/a.py"; "proj/b.py"] [] [])
    `sublist_of`
  fst (analyze_files sample_world [".git"] ["proj/a.py"; "proj/b.py"] [] []).
Proof.
  apply (more_patterns_fewer_issues sample_world [".git"] [".git"; "a.py"]).
  intros pattern H. simpl in H. destruct H as [<-|[]]. simpl. left. reflexivity.
Defined.

(** ** Diagnostics and groups of a run *)





Lemma issues_in_own (p : string) (l : list SilentExceptionIssue) :
  Forall (λ issue, file_path issue = p) l → issues_in p l = l.
Proof.
  unfold issues_in. induction 1 as [|i l Hi Hl IH]; [done|].
  by rewrite filter_cons_True, IH.
Qed.

Lemma issues_in_flat_map (g : string → list SilentExceptionIssue)
  (f : string) (files : list string) :
  (∀ x, Forall (λ issue, file_path issue = x) (g x)) →
  List.NoDup files →
  issues_in f (flat_map g files) = if decide (f ∈ files) then g f else [].
Proof.
  intros Hg. induction 1 as [|x files Hx Hnd IH]; [done|].
  cbn [flat_map]. unfold issues_in in *. rewrite filter_app, IH.
  destruct (decide (f = x)) as [->|Hfx].
  - fold (issues_in x (g x)). rewrite (issues_in_own x (g x)) by done.
    case_decide as Hin; [by apply list_elem_of_In in Hin|].
    case_decide as Hin'; [by rewrite app_nil_r|].
    destruct Hin'. left.
  - fold (issues_in f (g x)). rewrite (issues_in_other f x) by done.
    cbn. case_decide as Hin; case_decide as Hin'; try done.
    + destruct Hin'. by right.
    + by apply elem_of_cons in Hin' as [?|?].
Qed.

(** X12. In a directory run where no file is found twice, the issues
    grouped under a path are exactly those its own analysis returned, in
    the same order, and a path that was not analyzed has none. *)
Theorem group_is_the_analysis_of_the_file (w : World) (args : Args) (f : string) :
  path_is_file w (path args) = false →
  List.NoDup (rglob_py w (path args)) →
  issues_in f (fst (collect w args)) =
    if decide (f ∈ analyzed_files w args) then fst (analyze_file w f) else [].
Proof.
  intros Hfile Hnd. rewrite collect_issues.
  apply issues_in_flat_map; [intros x; apply analyze_file_paths|].
  unfold analyzed_files. rewrite Hfile.
  apply NoDup_ListNoDup, NoDup_filter. by apply NoDup_ListNoDup.
Qed.

Lemma group_is_the_analysis_of_the_file_witness :
  issues_in "proj/a.py" (fst (collect sample_world (sample_args false false))) =
    fst (analyze_file sample_world "proj/a.py").
Proof.
  refine (group_is_the_analysis_of_the_file sample_world
            (sample_args false false) "proj/a.py" eq_refl _).
  simpl. repeat constructor; simpl; intuition discriminate.
Defined.

(** ** Output modes *)

(** X13. With [--files-only] the output is the list of the files that have
    an issue, and nothing else: each such file once, in increasing order
    of path; it is empty exactly when no issue was found, and then the
    exit status is 0. *)
Theorem files_only_output (w : World) (args : Args) :
  path_exists w (path args) = true →
  files_only args = true →
  let out := stdout (main w args) in
  List.NoDup out ∧
  Sorted (λ a b, String.ltb a b = true) out ∧
  (∀ p, In p out ↔
        ∃ issue, In issue (fst (collect w args)) ∧ file_path issue = p) ∧
  (out = [] ↔ fst (collect w args) = []) ∧
  (out = [] → exit_status (main w args) = 0).
Proof.
  intros Hex Hfo out.
  assert (out = get_files_with_issues (fst (collect w args))) as ->.
  { unfold out, main. rewrite Hex, Hfo. cbn [negb].
    by destruct (collect w args). }
  rewrite (main_exit_status w args Hex).
  destruct (get_files_with_issues_spec (fst (collect w args)))
    as (Hnd & Hsorted & Hin).
  assert (get_files_with_issues (fst (collect w args)) = []
          ↔ fst (collect w args) = []) as Hnil.
  { split; [|by intros ->].
    intros Hnil. destruct (fst (collect w args)) as [|x l]; [done|].
    assert (In (file_path x) (get_files_with_issues (x :: l))) as Hx.
    { apply Hin. exists x. split; [by left|done]. }
    rewrite Hnil in Hx. destruct Hx. }
  split_and!; [done..|].
  intros H. apply Hnil in H. by rewrite H.
Qed.

Lemma files_only_output_witness :
  stdout (main sample_world (sample_args true false)) = [] ↔
  fst (collect sample_world (sample_args true false)) = [].
Proof.
  destruct (files_only_output sample_world (sample_args true false)
              eq_refl eq_refl) as (_ & _ & _ & H & _).
  exact H.
Defined.

(** X14. The output flags are tried in a fixed order. With [--files-only]
    the flags [--parallel-fix], [--json] and [--no-snippets] change
    nothing; with [--parallel-fix] and no [--files-only], [--json] and
    [--no-snippets] change nothing; with [--json] and neither of the
    others, [--no-snippets] changes nothing. *)
Theorem output_flag_precedence (w : World) (p : string) (excl : list string)
  (ns j pf ns' j' pf' : bool) :
  main w (Build_Args p ns excl j true pf) =
    main w (Build_Args p ns' excl j' true pf') ∧
  main w (Build_Args p ns excl j false true) =
    main w (Build_Args p ns' excl j' false true) ∧
  main w (Build_Args p ns excl true false false) =
    main w (Build_Args p ns' excl true false false).
Proof.
  unfold main, collect. cbn.
  destruct (path_exists w p); cbn; [|done].
  by destruct (path_is_file w p).
Qed.

(** X15. There are never more affected files than issues, and there is no
    affected file exactly when there is no issue. *)
Theorem affected_files_at_most_issues (issues : list SilentExceptionIssue) :
  (length (get_files_with_issues issues) ≤ length issues)%nat ∧
  (get_files_with_issues issues = [] ↔ issues = []).
Proof.
  destruct (get_files_with_issues_spec issues) as (Hnd & _ & Hin).
  split.
  - rewrite <- (length_map file_path issues).
    apply List.NoDup_incl_length; [done|].
    intros p (issue & Hi & <-)%Hin. by apply in_map.
  - split; [|by intros ->].
    intros Hnil. destruct issues as [|x l]; [done|].
    assert (In (file_path x) (get_files_with_issues (x :: l))) as Hx.
    { apply Hin. exists x. split; [by left|done]. }
    rewrite Hnil in Hx. destruct Hx.
Qed.

(** ** The report and the summaries *)

Lemma by_file_step_to_list (m : gmap string (list SilentExceptionIssue))
  (x : SilentExceptionIssue) :
  flat_map snd (map_to_list (by_file_step m x))
  ≡ₚ x :: flat_map snd (map_to_list m).
Proof.
  set (p := file_path x).
  assert (by_file_step m x = <[p := default [] (m !! p) ++ [x]]> (delete p m))
    as ->.
  { apply map_eq. intros q. rewrite by_file_step_lookup. fold p.
    destruct (decide (p = q)) as [<-|Hpq].
    - by rewrite lookup_insert_eq.
    - by rewrite lookup_insert_ne, lookup_delete_ne. }
  rewrite map_to_list_insert by apply lookup_delete_eq. cbn [flat_map snd].
  destruct (m !! p) as [g|] eqn:Hm; cbn [default].
  - rewrite <- (map_to_list_delete m p g Hm). cbn [flat_map snd].
    rewrite <- !app_assoc. cbn. by rewrite <- Permutation_middle.
  - by rewrite delete_id.
Qed.

Lemma by_file_to_list (l : list SilentExceptionIssue) :
  flat_map snd (map_to_list (by_file l)) ≡ₚ l.
Proof.
  unfold by_file. induction l as [|x l IH] using rev_ind.
  - cbn [fold_left]. by rewrite map_to_list_empty.
  - rewrite fold_left_app. cbn [fold_left].
    by rewrite by_file_step_to_list, IH, <- Permutation_cons_append.
Qed.

Lemma flat_map_snd_Permutation {A B : Type} (l l' : list (A * list B)) :
  l ≡ₚ l' → flat_map snd l ≡ₚ flat_map snd l'.
Proof.
  induction 1 as [|x l l' H IH|x y l|l l' l'' H IH H' IH']; cbn.
  - done.
  - by rewrite IH.
  - rewrite !app_assoc. f_equiv. apply Permutation_app_comm.
  - by rewrite IH.
Qed.

(** X16. The report shows every issue exactly once: the issues of its
    sections, taken together, are the issues given, up to order. *)
Theorem report_shows_every_issue_once (issues : list SilentExceptionIssue) :
  flat_map snd (report_sections issues) ≡ₚ issues.
Proof.
  rewrite <- (by_file_to_list issues) at 2.
  unfold report_sections, sorted_items.
  rewrite <- (flat_map_snd_Permutation _ _
                (py_sorted_Permutation String.leb fst (map_to_list (by_file issues)))).
  induction (py_sorted String.leb fst (map_to_list (by_file issues)))
    as [|[p g] items IH]; [done|].
  cbn. by rewrite IH, py_sorted_Permutation.
Qed.

Lemma issue_counts_step_to_list (m : gmap string nat) (x : SilentExceptionIssue) :
  list_sum (map snd (map_to_list (issue_counts_step m x)))
  = S (list_sum (map snd (map_to_list m))).
Proof.
  unfold issue_counts_step. set (ty := issue_type x).
  rewrite <- insert_delete_eq.
  assert (∀ l l' : list (string * nat),
            l ≡ₚ l' → list_sum (map snd l) = list_sum (map snd l')) as Hsum.
  { intros l l' H.
    induction H as [|a l l' H IH|a b l|l l' l'' H IH H' IH']; cbn;
      [done|f_equal; exact IH|lia|congruence]. }
  rewrite (Hsum _ _ (map_to_list_insert _ ty _ (lookup_delete_eq m ty))).
  destruct (m !! ty) as [c|] eqn:Hm; cbn [default].
  - rewrite <- (Hsum _ _ (map_to_list_delete m ty c Hm)).
    unfold list_sum. cbn. lia.
  - rewrite delete_id by done. unfold list_sum. cbn. lia.
Qed.

(** X17. The summary of the report counts the issues by type: a type has
    an entry exactly when an issue has that type, the entry is the number
    of such issues, and the entries add up to the number of issues. *)
Theorem summary_counts_by_type (issues : list SilentExceptionIssue) :
  (∀ ty, issue_counts issues !! ty =
         match length (issues_of_type ty issues) with
         | O => None
         | n => Some n
         end) ∧
  list_sum (map snd (map_to_list (issue_counts issues))) = length issues.
Proof.
  split.
  - intros ty. unfold issue_counts.
    rewrite fold_issue_counts_lookup, lookup_empty.
    by destruct (length _).
  - unfold issue_counts. induction issues as [|x l IH] using rev_ind.
    + cbn [fold_left]. by rewrite map_to_list_empty.
    + rewrite fold_left_app, length_app. cbn [fold_left length].
      rewrite issue_counts_step_to_list, IH. lia.
Qed.

Lemma summary_incr_to_map (ty : string) (summary : list (string * nat)) :
  (list_to_map (summary_incr ty summary) : gmap string nat) =
  <[ty := (default 0 ((list_to_map summary : gmap string nat) !! ty) + 1)%nat]>
    (list_to_map summary).
Proof.
  induction summary as [|[k v] rest IH]; [done|].
  cbn [summary_incr]. destruct (String.eqb_spec k ty) as [->|Hk].
  - cbn [list_to_map foldr uncurry fst snd].
    by rewrite lookup_insert_eq, insert_insert_eq.
  - cbn [list_to_map foldr uncurry fst snd]. fold (list_to_map (M := gmap string nat) rest).
    fold (list_to_map (M := gmap string nat) (summary_incr ty rest)).
    rewrite IH, lookup_insert_ne by done.
    by apply insert_insert_ne.
Qed.

Lemma summary_incr_keys (ty : string) (summary : list (string * nat)) :
  map fst (summary_incr ty summary) =
  if decide (ty ∈ map fst summary) then map fst summary
  else map fst summary ++ [ty].
Proof.
  induction summary as [|[k v] rest IH]; [done|].
  cbn [summary_incr]. destruct (String.eqb_spec k ty) as [->|Hk].
  - cbn. by rewrite decide_True by left.
  - cbn [map fst]. rewrite IH.
    destruct (decide (ty ∈ map fst rest)) as [Hin|Hin].
    + by rewrite decide_True by (by right).
    + rewrite decide_False; [done|]. by intros [?|?]%elem_of_cons.
Qed.

(** X18. The [summary] of the [--json] result is a dictionary with one
    entry for each type, which holds the same counts as the summary of the
    report; and [total_count] and [files_count] are the lengths of the
    lists given beside them. *)
Theorem json_summary_agrees_with_report (issues : list SilentExceptionIssue) :
  let result := json_result issues in
  List.NoDup (map fst (json_summary result)) ∧
  (list_to_map (json_summary result) : gmap string nat) = issue_counts issues ∧
  json_total_count result = length (json_issues result) ∧
  json_files_count result = length (json_files_with_issues result).
Proof.
  cbn. split_and!; [| |done..].
  - induction issues as [|x l IH] using rev_ind; [constructor|].
    rewrite fold_left_app. cbn [fold_left]. rewrite summary_incr_keys.
    case_decide as Hin; [done|].
    apply List.NoDup_app; [done|repeat constructor; by intros []|].
    intros k Hk [<-|[]]. by apply list_elem_of_In in Hk.
  - unfold issue_counts. induction issues as [|x l IH] using rev_ind; [done|].
    rewrite !fold_left_app. cbn [fold_left].
    by rewrite summary_incr_to_map, IH.
Qed.

Lemma insert_sorted_stable {A : Type} (key : A → Z) (k : Z) (x : A) (l : list A) :
  filter (λ y, key y = k) (insert_sorted Z.leb key x l) =
  filter (λ y, key y = k) (x :: l).
Proof.
  induction l as [|y l IH]; [done|].
  cbn [insert_sorted]. destruct (Z.leb_spec (key x) (key y)) as [Hle|Hlt]; [done|].
  rewrite (filter_cons _ y), IH, !filter_cons.
  destruct (decide (key y = k)), (decide (key x = k)); try done. lia.
Qed.

Lemma py_sorted_stable {A : Type} (key : A → Z) (k : Z) (l : list A) :
  filter (λ y, key y = k) (py_sorted Z.leb key l) = filter (λ y, key y = k) l.
Proof.
  induction l as [|x l IH]; [done|].
  cbn [py_sorted fold_right]. fold (py_sorted Z.leb key l).
  by rewrite insert_sorted_stable, !filter_cons, IH.
Qed.

(** X19. The sort by line is stable: in a section of the report, the
    issues that are on the same line come in the order they were
    collected, so that the issue for the filter of a handler comes before
    the one for its body. *)
Theorem same_line_keeps_collection_order
  (issues : list SilentExceptionIssue)
  (s : string * list SilentExceptionIssue) (line : Z) :
  In s (report_sections issues) →
  filter (λ issue, line_number issue = line) (snd s) =
  filter (λ issue, line_number issue = line) (issues_in (fst s) issues).
Proof.
  unfold report_sections. rewrite in_map_iff.
  intros ([p g] & <- & Hin). apply sorted_items_In in Hin.
  rewrite by_file_lookup in Hin. cbn [fst snd].
  rewrite py_sorted_stable. by destruct (issues_in p issues); simplify_eq.
Qed.

Lemma same_line_keeps_collection_order_witness :
  let bare := {| file_path := "a.py"; line_number := 2; column := 0;
                 issue_type := "bare_except"; description := "d";
                 code_snippet := None |} in
  let pass := {| file_path := "a.py"; line_number := 2; column := 0;
                 issue_type := "pass_only"; description := "d";
                 code_snippet := None |} in
  filter (λ issue, line_number issue = 2) [bare; pass] =
  filter (λ issue, line_number issue = 2) (issues_in "a.py" [bare; pass]).
Proof.
  intros bare pass.
  apply (same_line_keeps_collection_order [bare; pass] ("a.py", [bare; pass]) 2).
  vm_compute. left. reflexivity.
Defined.

Lemma py_sorted_map {A B K : Type} (leb : K → K → bool) (key : B → K)
  (h : A → B) (l : list A) :
  py_sorted leb key (map h l) = map h (py_sorted leb (λ x, key (h x)) l).
Proof.
  induction l as [|x l IH]; [done|].
  cbn [map py_sorted fold_right].
  fold (py_sorted leb key (map h l)). fold (py_sorted leb (λ x, key (h x)) l).
  rewrite IH. generalize (py_sorted leb (λ x, key (h x)) l). intros k.
  induction k as [|y k IHk]; [done|].
  cbn [map insert_sorted]. destruct (leb (key (h x)) (key (h y))); [done|].
  cbn [map]. by rewrite IHk.
Qed.

Lemma by_file_without_snippet (l : list SilentExceptionIssue) :
  by_file (map without_snippet l) = map without_snippet <$> by_file l.
Proof.
  apply map_eq. intros p. rewrite lookup_fmap, !by_file_lookup.
  assert (issues_in p (map without_snippet l)
          = map without_snippet (issues_in p l)) as ->.
  { unfold issues_in. induction l as [|x l IH]; [done|].
    cbn [map]. rewrite !filter_cons. cbn [without_snippet file_path].
    case_decide; cbn [map]; by rewrite IH. }
  by destruct (issues_in p l).
Qed.

Lemma issue_counts_without_snippet (l : list SilentExceptionIssue) :
  issue_counts (map without_snippet l) = issue_counts l.
Proof.
  unfold issue_counts. generalize (∅ : gmap string nat).
  induction l as [|x l IH]; intros m; [done|].
  cbn [map fold_left]. by rewrite IH.
Qed.

Lemma report_sections_without_snippet (l : list SilentExceptionIssue) :
  report_sections (map without_snippet l) =
  map (λ s, (fst s, map without_snippet (snd s))) (report_sections l).
Proof.
  unfold report_sections, sorted_items.
  rewrite by_file_without_snippet, map_to_list_fmap.
  change (prod_map id (map without_snippet) <$> ?l)
    with (map (prod_map id (map without_snippet)) l).
  rewrite (py_sorted_map String.leb fst (prod_map id (map without_snippet))).
  change (λ x : string * list SilentExceptionIssue,
            fst (prod_map id (map without_snippet) x))
    with (@fst string (list SilentExceptionIssue)).
  rewrite !map_map. apply map_ext. intros [p g]. cbn.
  f_equal. exact (py_sorted_map Z.leb line_number without_snippet g).
Qed.

(** X20. Without snippets the report does not depend on the snippets of
    the issues: it is the report of the same issues with their snippets
    removed. *)
Theorem report_without_snippets_ignores_them (issues : list SilentExceptionIssue) :
  format_issue_report (map without_snippet issues) false =
  format_issue_report issues false.
Proof.
  destruct issues as [|x l]; [done|].
  unfold format_issue_report. cbn [map].
  change (without_snippet x :: map without_snippet l)
    with (map without_snippet (x :: l)).
  rewrite length_map. f_equal. f_equal. f_equal.
  - rewrite report_sections_without_snippet, flat_map_concat_map, map_map,
      <- flat_map_concat_map.
    apply flat_map_ext. intros [p g]. unfold section_lines. cbn [fst snd].
    f_equal. f_equal. rewrite flat_map_concat_map, map_map, <- flat_map_concat_map.
    apply flat_map_ext. intros issue. unfold issue_lines. cbn.
    by destruct (code_snippet issue).
  - unfold summary_lines. by rewrite issue_counts_without_snippet.
Qed.

(** X21. The list of affected files holds every file that has an issue,
    each once, in strictly increasing order of path, and no other file. *)
Theorem affected_files_sorted_once (issues : list SilentExceptionIssue) :
  List.NoDup (get_files_with_issues issues) ∧
  Sorted (λ a b, String.ltb a b = true) (get_files_with_issues issues) ∧
  ∀ p, In p (get_files_with_issues issues) ↔
       ∃ issue, In issue issues ∧ file_path issue = p.
Proof. apply get_files_with_issues_spec. Qed.

(** X22. A tree yields at most two issues for each of its exception
    handlers, and none when it has no handler. *)
Theorem at_most_two_issues_per_handler
  (fp : string) (src : list string) (tree : AST) :
  (length (self_issues (visit (init fp src) tree))
   ≤ 2 * length (handler_positions tree))%nat.
Proof.
  rewrite visit_spec. cbn [self_issues self_file_path self_source_lines init app].
  assert (length (nodes_at tree (handler_positions tree))
          ≤ length (handler_positions tree))%nat as Hnodes.
  { unfold nodes_at. induction (handler_positions tree) as [|p ps IH]; [done|].
    cbn [flat_map]. rewrite length_app. destruct (node_at p tree); cbn; lia. }
  assert (∀ hs, length (flat_map (handler_issues fp src) hs) ≤ 2 * length hs)%nat
    as Hissues.
  { induction hs as [|h hs IH]; [done|].
    cbn [flat_map]. rewrite length_app.
    rewrite <- (length_map issue_type (handler_issues fp src h)).
    rewrite handler_issues_chains, map_app, length_app.
    destruct (type_chain_types fp src h) as [-> | [-> | ->]];
      destruct (body_chain_types fp src h) as [-> | [-> | ->]]; cbn in *; lia. }
  specialize (Hissues (nodes_at tree (handler_positions tree))). lia.
Qed.
